(** * alert365: the daily digest batch job (scripts/daily-digest.js)

    A shallow embedding of the script: the date resolver, the event enricher,
    the matcher, the broadcaster section of the renderer and the dispatcher,
    followed by the properties the specification states about them.

    Conventions of the embedding.
    - A nullable column of the data store (JSON [null]) and JavaScript's
      [undefined] are both [None]; wherever the script tells them apart this
      is written out.
    - Numeric identifiers are [Z]; user identifiers are strings.
    - A row returned by a query is a JavaScript object; its identity is the
      address [addr] it is allocated at (its position in the result array).
    - Effects (console output, e-mail sends, sleeps) are recorded in order
      in a trace.
    - The lookup tables are plain objects used as maps; identifiers are
      taken not to be names of [Object.prototype] properties, so a lookup
      finds what [Object.fromEntries] put there and nothing else.
    - A team's name may be [null]: line 62 calls a method on it, which
      throws. The other fields typed [string] (the name and emoji of a
      sport, the name and url of a broadcaster, the date of an event) hold
      a string in every row. *)

From Stdlib Require Import ZArith Lia Ascii.
From stdpp Require Import base option list strings gmap sorting.

Local Open Scope Z_scope.

(** ** The host: library functions the script calls

    [String.prototype.toLowerCase], [String.prototype.localeCompare] and
    [Date.prototype.toLocaleDateString] are functions of the JavaScript
    engine, [createClient] and [sgMail.setApiKey] functions of the two
    client libraries, not of the repository; the embedding is parametric
    in them. Of the two library calls of lines 16-17 only the exception
    they may throw is kept: [createClient url key] and [setApiKey key] are
    the message of that exception, [None] when the call returns; what a
    library prints by itself is not part of the trace. *)

Class Host := {
  toLowerCase : string → string;
  localeCompare : string → string → Z;
  toLocaleDateString : string → string;
  createClient : string → string → option string;
  setApiKey : string → option string
}.

(** ** JavaScript truthiness of the values the script tests *)

Module JS.

(** [!!n] for a number-or-null: [null] and [0] are falsy. *)
Definition truthy_num (v : option Z) : bool :=
  match v with
  | Some n => negb (n =? 0)
  | None => false
  end.

(** [!!s] for a string-or-null: [null], [undefined] and [''] are falsy. *)
Definition truthy_str (v : option string) : bool :=
  match v with
  | Some s => negb (String.eqb s "")
  | None => false
  end.

(** [a || b] on string-or-null with a string default. *)
Definition or_str (v : option string) (d : string) : string :=
  match v with
  | Some s => if String.eqb s "" then d else s
  | None => d
  end.

(** [Array.prototype.includes]: SameValueZero on primitives; on
    string-or-undefined this is equality. *)
Definition includes (xs : list (option string)) (v : option string) : bool :=
  bool_decide (v ∈ xs).

(** [Object.fromEntries]: a later entry overwrites an earlier one. *)
Definition fromEntries `{Countable K} {V} (entries : list (K * V)) : gmap K V :=
  foldl (λ m kv, <[kv.1 := kv.2]> m) ∅ entries.

(** [Array.prototype.sort] with a comparator: a stable sort, here by
    insertion. An element is placed before the first one it does not
    exceed. *)
Fixpoint sort_insert {A} (cmp : A → A → Z) (x : A) (l : list A) : list A :=
  match l with
  | [] => [x]
  | y :: l' => if cmp x y <=? 0 then x :: y :: l' else y :: sort_insert cmp x l'
  end.

Definition sort {A} (cmp : A → A → Z) (l : list A) : list A :=
  foldr (sort_insert cmp) [] l.

(** [Array.prototype.slice(i, j)] for [0 <= i <= j]. *)
Definition slice {A} (i j : nat) (l : list A) : list A :=
  take (j - i) (drop i l).

End JS.

(** ** Rows of the data store *)

Module Sport.
Record t := mk { id : Z; name : string; emoji : string }.
End Sport.

Module Team.
(** [name] is [None] for a row whose name is [null]. *)
Record t := mk { id : Z; name : option string }.
End Team.

Module Broadcaster.
Record t := mk { id : Z; name : string; url : string; type : option string }.
End Broadcaster.

Module User.
Record t := mk { id : string; email : option string }.
End User.

Module Alert.
Record t := mk {
  id : Z;
  user_id : string;
  sport_id : Z;
  league_id : option Z;
  team_id : option Z
}.
End Alert.

Module Event.
(** [broadcasters] is absent from the rows of the data store; the enricher
    assigns it. *)
Record t := mk {
  id : Z;
  sport_id : Z;
  competition : option string;
  date : string;
  time : option string;
  event_detail_1 : option string;
  event_detail_2 : option string;
  broadcaster_ids : option (list Z);
  start_at : option string;
  broadcasters : option (list Broadcaster.t)
}.
End Event.

(** An event object: the row together with its identity. *)
Record EventObj := { addr : nat; val : Event.t }.

(** The [{ data, error }] pair a query resolves to. *)
Module Res.
Record t (A : Type) := mk { error : option string; data : option (list A) }.
Arguments mk {A} _ _.
Arguments error {A} _.
Arguments data {A} _.
(** [res.data || []] *)
Definition rows {A} (r : t A) : list A := default [] (data r).
End Res.

(** ** luxon's DateTime, as far as the script uses it

    luxon is a dependency of the script, not part of the repository; the
    three members the script uses are written out after luxon's documented
    behaviour. [DateTime.now().setZone("Europe/Paris")] is the civil
    (wall-clock) time in Paris at the instant of the run; the run receives
    it as an input. [plus({ days: n })] is calendar arithmetic on the civil
    date, the time of day kept, and [toISODate()] prints the civil date. *)

Module DateTime.

Record t := mk {
  year : Z; month : Z; day : Z;
  hour : Z; minute : Z; second : Z
}.

Definition isLeapYear (y : Z) : bool :=
  (y mod 4 =? 0) && (negb (y mod 100 =? 0) || (y mod 400 =? 0)).

Definition daysInMonth (y m : Z) : Z :=
  if m =? 2 then (if isLeapYear y then 29 else 28)
  else if (m =? 4) || (m =? 6) || (m =? 9) || (m =? 11) then 30
  else 31.

(** One calendar day later, the time of day kept. *)
Definition next_day (dt : t) : t :=
  if day dt <? daysInMonth (year dt) (month dt) then
    mk (year dt) (month dt) (day dt + 1) (hour dt) (minute dt) (second dt)
  else if month dt <? 12 then
    mk (year dt) (month dt + 1) 1 (hour dt) (minute dt) (second dt)
  else
    mk (year dt + 1) 1 1 (hour dt) (minute dt) (second dt).

(** [dt.plus({ days: n })] *)
Definition plus_days (n : nat) (dt : t) : t := Nat.iter n next_day dt.

Definition digit (d : Z) : Ascii.ascii :=
  Ascii.ascii_of_nat (48 + Z.to_nat (d mod 10))%nat.

(** [padStart(n, 2)] and [padStart(n, 4)] of a non-negative number. *)
Definition pad2 (n : Z) : string :=
  String (digit (n / 10)) (String (digit n) "").

Definition pad4 (n : Z) : string :=
  String (digit (n / 1000)) (String (digit (n / 100)) (pad2 n)).

Definition pad6 (n : Z) : string :=
  String (digit (n / 100000)) (String (digit (n / 10000)) (pad4 n)).

(** Years outside 0..9999 are printed in the extended form, with a sign and
    six digits. *)
Definition isoYear (y : Z) : string :=
  if (0 <=? y) && (y <=? 9999) then pad4 y
  else if y <? 0 then "-" +:+ pad6 (- y)
  else "+" +:+ pad6 y.

(** [dt.toISODate()]: "YYYY-MM-DD". *)
Definition toISODate (dt : t) : string :=
  isoYear (year dt) +:+ "-" +:+ pad2 (month dt) +:+ "-" +:+ pad2 (day dt).

(** A civil date-time that exists in the Gregorian calendar. *)
Definition valid (dt : t) : Prop :=
  1 ≤ month dt ≤ 12 ∧ 1 ≤ day dt ≤ daysInMonth (year dt) (month dt) ∧
  0 ≤ hour dt ≤ 23 ∧ 0 ≤ minute dt ≤ 59 ∧ 0 ≤ second dt ≤ 59.

(** The number of days from 0001-01-01 to the civil date (the day count
    against which "one calendar day later" is measured). *)
Definition days_before_year (y : Z) : Z :=
  365 * (y - 1) + (y - 1) / 4 - (y - 1) / 100 + (y - 1) / 400.

Fixpoint days_before_month_from (y : Z) (m : nat) : Z :=
  match m with
  | O => 0
  | S m' => days_before_month_from y m' + daysInMonth y (Z.of_nat m)
  end.

Definition day_number (dt : t) : Z :=
  days_before_year (year dt)
  + days_before_month_from (year dt) (Z.to_nat (month dt - 1))
  + day dt.

End DateTime.

(** ** Effects of a run *)

(** One line of the broadcasters section of an event block. *)
Inductive BroadcasterLine :=
  | GroupHeader (label : string)
  | BroadcasterRow (broadcaster : Broadcaster.t) (type : string)
  | NoBroadcaster.

(** An event block of the digest: the fields [generateEventHTML]
    interpolates into its template. *)
Record EventBlock := {
  block_emoji : string;
  block_sport : string;
  block_title_competition : string;
  block_competition : string;
  block_time : string;
  block_event : string;
  block_date : string;
  block_broadcasters : list BroadcasterLine
}.

(** The e-mail body: the fixed page frame around the event blocks. *)
Definition Html := list EventBlock.

Inductive LogLine :=
  | LogStarting
  | LogBefore6 (hour : Z) (targetDate : string)
  | LogAfter6 (hour : Z) (targetDate : string)
  | LogNoEvents
  | LogFound (n : nat) (targetDate : string)
  | LogPreparing (n : nat)
  | LogSent (email : string)
  | LogDone (sent failed : nat).

Inductive ErrorLine :=
  | SendFailed (email : string)
  | Caught (message : string).

Inductive Effect :=
  | ConsoleLog (line : LogLine)
  | ConsoleError (line : ErrorLine)
  | UncaughtException (message : string)
  | SendMail (to : string) (html : Html)
  | Sleep (ms : Z).

(** How an async function settles. *)
Inductive Outcome :=
  | Resolved
  | Rejected (message : string).

(** ** The date resolver (main, lines 29-40) *)

Definition resolveTargetDate (nowParis : DateTime.t) : string * Effect :=
  if DateTime.hour nowParis <? 6 then
    let targetDate := DateTime.toISODate nowParis in
    (targetDate, ConsoleLog (LogBefore6 (DateTime.hour nowParis) targetDate))
  else
    let targetDate := DateTime.toISODate (DateTime.plus_days 1 nowParis) in
    (targetDate, ConsoleLog (LogAfter6 (DateTime.hour nowParis) targetDate)).

Definition targetDate (nowParis : DateTime.t) : string :=
  (resolveTargetDate nowParis).1.

Section Digest.
Context `{Host}.

(** ** The event enricher (main, lines 64-70) *)

(** [.filter(Boolean)] on an array of objects-or-undefined: an object is
    truthy, [undefined] is dropped. *)
Fixpoint filterBoolean {A} (l : list (option A)) : list A :=
  match l with
  | [] => []
  | Some x :: l' => x :: filterBoolean l'
  | None :: l' => filterBoolean l'
  end.

Definition resolveBroadcasters (broadcasterMap : gmap Z Broadcaster.t)
    (broadcaster_ids : option (list Z)) : list Broadcaster.t :=
  filterBoolean ((λ id, broadcasterMap !! id) <$> default [] broadcaster_ids).

Definition enrich (broadcasterMap : gmap Z Broadcaster.t) (e : Event.t) : Event.t :=
  Event.mk (Event.id e) (Event.sport_id e) (Event.competition e) (Event.date e)
    (Event.time e) (Event.event_detail_1 e) (Event.event_detail_2 e)
    (Event.broadcaster_ids e) (Event.start_at e)
    (Some (resolveBroadcasters broadcasterMap (Event.broadcaster_ids e))).

(** The rows of the events query as objects, each with its own identity. *)
Definition allocate (rows : list Event.t) : list EventObj :=
  imap (λ i e, {| addr := i; val := e |}) rows.

Definition enrichAll (broadcasterMap : gmap Z Broadcaster.t)
    (events : list EventObj) : list EventObj :=
  (λ o, {| addr := addr o; val := enrich broadcasterMap (val o) |}) <$> events.

(** ** The matcher (main, lines 72-88) *)

(** A [Set] of event objects: insertion ordered, membership by identity. *)
Definition EventSet := list EventObj.

Definition Set_has (s : EventSet) (o : EventObj) : bool :=
  bool_decide (addr o ∈ addr <$> s).

Definition Set_add (s : EventSet) (o : EventObj) : EventSet :=
  if Set_has s o then s else s ++ [o].

(** A [Map] from user id to its [Set]: insertion ordered; [set] on a key
    that is present replaces the value in place. *)
Definition UserEventsMap := list (string * EventSet).

Fixpoint Map_get (m : UserEventsMap) (k : string) : option EventSet :=
  match m with
  | [] => None
  | (k', v) :: m' => if decide (k' = k) then Some v else Map_get m' k
  end.

Definition Map_has (m : UserEventsMap) (k : string) : bool :=
  bool_decide (is_Some (Map_get m k)).

Fixpoint Map_set (m : UserEventsMap) (k : string) (v : EventSet) : UserEventsMap :=
  match m with
  | [] => [(k, v)]
  | (k', v') :: m' =>
      if decide (k' = k) then (k, v) :: m' else (k', v') :: Map_set m' k v
  end.

(** The league code the competition stands for (line 80). *)
Definition leagueOf (competition : option string) : option Z :=
  if decide (competition = Some "ATP Tour") then Some 1
  else if decide (competition = Some "WTA Tour") then Some 22
  else None.

(** [x?.toLowerCase()]: [undefined] for a null or undefined [x]. *)
Definition lowerOpt (x : option string) : option string :=
  match x with
  | Some s => Some (toLowerCase s)
  | None => None
  end.

(** The [match] expression of lines 79-81. [teamsMap[alert.team_id]] is
    [undefined] for an id the table does not hold. *)
Definition isMatch (teamsMap : gmap Z string) (event : Event.t) (alert : Alert.t) : bool :=
  let isTennis := Event.sport_id event =? 20 in
  if isTennis then
    negb (JS.truthy_num (Alert.league_id alert))
    || bool_decide (Alert.league_id alert = leagueOf (Event.competition event))
  else
    negb (JS.truthy_num (Alert.team_id alert))
    || JS.includes
         (lowerOpt <$> [Event.event_detail_1 event; Event.event_detail_2 event])
         (Alert.team_id alert ≫= λ id, teamsMap !! id).

(** Whether the inner loop body reaches the insertion for this pair. *)
Definition matches (teamsMap : gmap Z string) (event : Event.t) (alert : Alert.t) : bool :=
  if negb (Alert.sport_id alert =? Event.sport_id event) then false
  else isMatch teamsMap event alert.

(** Lines 84-85: create the user's set on first use, then add the event.
    The [None] branch is not reached ([record_match_eq]): the set is there
    after the line before. *)
Definition record_match (m : UserEventsMap) (user_id : string) (event : EventObj)
    : UserEventsMap :=
  let m1 := if Map_has m user_id then m else Map_set m user_id [] in
  match Map_get m1 user_id with
  | Some s => Map_set m1 user_id (Set_add s event)
  | None => m1
  end.

(** The body of the inner loop. *)
Definition match_alert (teamsMap : gmap Z string) (event : EventObj)
    (m : UserEventsMap) (alert : Alert.t) : UserEventsMap :=
  if negb (Alert.sport_id alert =? Event.sport_id (val event)) then m
  else if isMatch teamsMap (val event) alert
  then record_match m (Alert.user_id alert) event
  else m.

Definition match_event (teamsMap : gmap Z string) (alerts : list Alert.t)
    (m : UserEventsMap) (event : EventObj) : UserEventsMap :=
  foldl (match_alert teamsMap event) m alerts.

Definition matcher (teamsMap : gmap Z string) (events : list EventObj)
    (alerts : list Alert.t) : UserEventsMap :=
  foldl (match_event teamsMap alerts) [] events.

(** ** The digest renderer (generateEventHTML, generateEmailHTML) *)

Definition byName (a b : Broadcaster.t) : Z :=
  localeCompare (Broadcaster.name a) (Broadcaster.name b).

(** [event.broadcasters?.filter((b) => b.type === ty).sort(byName) || []] *)
Definition broadcastersOfType (ty : string) (event : Event.t) : list Broadcaster.t :=
  match Event.broadcasters event with
  | Some bs => JS.sort byName (filter (λ b, Broadcaster.type b = Some ty) bs)
  | None => []
  end.

Definition renderBroadcasterRow (broadcaster : Broadcaster.t) (ty : string)
    : BroadcasterLine :=
  BroadcasterRow broadcaster ty.

(** Lines 322-346: the three conditional parts of the section. *)
Definition broadcastersSection (event : Event.t) : list BroadcasterLine :=
  let tv := broadcastersOfType "tv" event in
  let streaming := broadcastersOfType "streaming" event in
  (if (0 <? length tv)%nat
   then GroupHeader "TV" :: ((λ b, renderBroadcasterRow b "tv") <$> tv)
   else [])
  ++ (if (0 <? length streaming)%nat
      then GroupHeader "STREAMING"
           :: ((λ b, renderBroadcasterRow b "streaming") <$> streaming)
      else [])
  ++ (if (length tv =? 0)%nat && (length streaming =? 0)%nat
      then [NoBroadcaster]
      else []).

(** [timeStr?.substring(0, 5) || ''] *)
Definition formatTime (timeStr : option string) : string :=
  match timeStr with
  | Some s => String.substring 0 5 s
  | None => ""
  end.

(** A template literal prints [null] as the word null. *)
Definition interpolate (v : option string) : string := default "null" v.

Definition generateEventHTML (event : Event.t) (sportsMap : gmap Z Sport.t)
    : EventBlock :=
  let sport := sportsMap !! Event.sport_id event in
  {| block_emoji := from_option Sport.emoji "🏆" sport;
     block_sport := from_option Sport.name "Sport" sport;
     block_title_competition := JS.or_str (Event.competition event) "Compétition";
     block_competition := JS.or_str (Event.competition event) "N/A";
     block_time := formatTime (Event.time event);
     block_event :=
       interpolate (Event.event_detail_1 event)
       +:+ (if JS.truthy_str (Event.event_detail_2 event)
            then " - " +:+ interpolate (Event.event_detail_2 event)
            else "");
     block_date := toLocaleDateString (Event.date event);
     block_broadcasters := broadcastersSection event |}.

Definition generateEmailHTML (events : list Event.t) (sportsMap : gmap Z Sport.t)
    : Html :=
  (λ event, generateEventHTML event sportsMap) <$> events.

(** ** The dispatcher (main, lines 90-127) *)

Definition BATCH_SIZE : nat := 5.
Definition DELAY_BETWEEN_BATCHES : Z := 2000.
Definition DELAY_BETWEEN_EMAILS : Z := 600.

Record Progress := { trace : list Effect; sent : nat; failed : nat }.

Definition emit (p : Progress) (es : list Effect) : Progress :=
  {| trace := trace p ++ es; sent := sent p; failed := failed p |}.

(** The comparator of line 103. *)
Definition byStart (a b : EventObj) : Z :=
  localeCompare (JS.or_str (Event.start_at (val a)) "")
                (JS.or_str (Event.start_at (val b)) "").

(** What is sent to a user: the events of the set, sorted (line 103). *)
Definition digestOf (eventsSet : EventSet) : list EventObj :=
  JS.sort byStart eventsSet.

(** The body of the inner loop (lines 99-122). [send_ok n] tells whether
    the transport accepts the n-th attempt of the run; a skipped user
    reaches neither the send nor the sleep after it. *)
Definition deliver (sportsMap : gmap Z Sport.t) (userIdToEmail : gmap string (option string))
    (send_ok : nat → bool) (p : Progress) (entry : string * EventSet) : Progress :=
  let email := mjoin (userIdToEmail !! entry.1) in
  if negb (JS.truthy_str email) || (length entry.2 =? 0)%nat then p
  else
    let to := default "" email in
    let html := generateEmailHTML (val <$> digestOf entry.2) sportsMap in
    let p' :=
      if send_ok (sent p + failed p)%nat
      then {| trace := trace p ++ [SendMail to html; ConsoleLog (LogSent to)];
              sent := S (sent p); failed := failed p |}
      else {| trace := trace p ++ [SendMail to html; ConsoleError (SendFailed to)];
              sent := sent p; failed := S (failed p) |} in
    emit p' [Sleep DELAY_BETWEEN_EMAILS].

(** The outer loop (lines 96-125), from index [i]. [None]: the fuel ran
    out before the loop ended. *)
Fixpoint dispatch_from (fuel : nat) (batch_size : nat) (sportsMap : gmap Z Sport.t)
    (userIdToEmail : gmap string (option string)) (send_ok : nat → bool)
    (usersList : list (string * EventSet)) (i : nat) (p : Progress)
    : option Progress :=
  match fuel with
  | O => None
  | S fuel' =>
      if (i <? length usersList)%nat then
        let batch := JS.slice i (i + batch_size) usersList in
        let p1 := foldl (deliver sportsMap userIdToEmail send_ok) p batch in
        let p2 :=
          if (i + batch_size <? length usersList)%nat
          then emit p1 [Sleep DELAY_BETWEEN_BATCHES]
          else p1 in
        dispatch_from fuel' batch_size sportsMap userIdToEmail send_ok usersList
          (i + batch_size) p2
      else Some p
  end.

Definition dispatch (batch_size : nat) (sportsMap : gmap Z Sport.t)
    (userIdToEmail : gmap string (option string)) (send_ok : nat → bool)
    (usersList : list (string * EventSet)) (p : Progress) : option Progress :=
  dispatch_from (S (length usersList)) batch_size sportsMap userIdToEmail send_ok
    usersList 0 p.

(** ** The run (main) and the script around it *)

Record World := {
  nowParis : DateTime.t;
  sportsRes : Res.t Sport.t;
  eventsRes : string → Res.t Event.t;
  broadcastersRes : Res.t Broadcaster.t;
  teamsRes : Res.t Team.t;
  alertsRes : Res.t Alert.t;
  usersRes : Res.t User.t;
  send_ok : nat → bool
}.

Definition sportsMapOf (w : World) : gmap Z Sport.t :=
  JS.fromEntries ((λ s, (Sport.id s, s)) <$> Res.rows (sportsRes w)).

(** [t.name.toLowerCase()] on a row whose name is [null] throws a
    [TypeError] with this message. *)
Definition nullNameError : string :=
  "Cannot read properties of null (reading 'toLowerCase')".

(** The entries of line 62, [[t.id, t.name.toLowerCase()]] for each row in
    order; [None] when a name is [null] and the call throws. *)
Fixpoint teamEntries (rows : list Team.t) : option (list (Z * string)) :=
  match rows with
  | [] => Some []
  | t :: rows' =>
      match Team.name t with
      | Some name =>
          match teamEntries rows' with
          | Some entries => Some ((Team.id t, toLowerCase name) :: entries)
          | None => None
          end
      | None => None
      end
  end.

(** [teamsMap] (line 62); [None] when building it throws. *)
Definition teamsMapOf (w : World) : option (gmap Z string) :=
  JS.fromEntries <$> teamEntries (Res.rows (teamsRes w)).

Definition userIdToEmailOf (w : World) : gmap string (option string) :=
  JS.fromEntries ((λ u, (User.id u, User.email u)) <$> Res.rows (usersRes w)).

Definition broadcasterMapOf (w : World) : gmap Z Broadcaster.t :=
  JS.fromEntries ((λ b, (Broadcaster.id b, b)) <$> Res.rows (broadcastersRes w)).

(** The events of the run, enriched (lines 67-70). *)
Definition eventsOf (w : World) : list EventObj :=
  enrichAll (broadcasterMapOf w) (allocate (Res.rows (eventsRes w (targetDate (nowParis w))))).

(** [main]: the trace of the run and how the promise settles; [None] only
    if the dispatcher's loop were not to end. The exception of line 62 is
    thrown inside the async function and rejects its promise. *)
Definition main (w : World) : option (list Effect * Outcome) :=
  let date := targetDate (nowParis w) in
  let t1 := [ConsoleLog LogStarting; (resolveTargetDate (nowParis w)).2] in
  let events_res := eventsRes w date in
  match Res.error events_res with
  | Some message => Some (t1, Rejected ("Error fetching events: " +:+ message))
  | None =>
      if (length (Res.rows events_res) =? 0)%nat
      then Some (t1 ++ [ConsoleLog LogNoEvents], Resolved)
      else
        let t2 := t1 ++ [ConsoleLog (LogFound (length (Res.rows events_res)) date)] in
        match teamsMapOf w with
        | None => Some (t2, Rejected nullNameError)
        | Some teamsMap =>
            let usersList := matcher teamsMap (eventsOf w) (Res.rows (alertsRes w)) in
            let t3 := t2 ++ [ConsoleLog (LogPreparing (length usersList))] in
            match dispatch BATCH_SIZE (sportsMapOf w) (userIdToEmailOf w) (send_ok w)
                    usersList {| trace := t3; sent := 0; failed := 0 |} with
            | Some p => Some (trace p ++ [ConsoleLog (LogDone (sent p) (failed p))], Resolved)
            | None => None
            end
        end
  end.

(** The environment variables of lines 7-9. *)
Record Env := {
  SENDGRID_API_KEY : option string;
  SUPABASE_URL : option string;
  SUPABASE_SERVICE_ROLE_KEY : option string
}.

(** A variable that passed the test of line 11 is a non-empty string. *)
Definition valueOf (v : option string) : string := default "" v.

(** The script from top to bottom (lines 7-17 and 356): the trace and the
    exit status of the process. An exception thrown at the top level, by
    line 12 or by one of the two library calls of lines 16-17, is uncaught
    and ends the process with status 1 before [main] is called; a rejection
    of [main()] is handled by [.catch(console.error)], after which the
    process ends normally. *)
Definition script (env : Env) (w : World) : option (list Effect * Z) :=
  if negb (JS.truthy_str (SENDGRID_API_KEY env))
     || negb (JS.truthy_str (SUPABASE_URL env))
     || negb (JS.truthy_str (SUPABASE_SERVICE_ROLE_KEY env))
  then Some ([UncaughtException "Missing required environment variables"], 1)
  else
    match createClient (valueOf (SUPABASE_URL env))
                       (valueOf (SUPABASE_SERVICE_ROLE_KEY env)) with
    | Some message => Some ([UncaughtException message], 1)
    | None =>
        match setApiKey (valueOf (SENDGRID_API_KEY env)) with
        | Some message => Some ([UncaughtException message], 1)
        | None =>
            match main w with
            | Some (tr, Resolved) => Some (tr, 0)
            | Some (tr, Rejected message) =>
                Some (tr ++ [ConsoleError (Caught message)], 0)
            | None => None
            end
        end
    end.

End Digest.

(** ** A concrete host, for running the model

    ASCII lower-casing, comparison by character code, dates printed as
    they are stored, a client library that refuses a URL which is not an
    HTTP or HTTPS one, and a mail library that takes any key. *)

Definition asciiLower (c : Ascii.ascii) : Ascii.ascii :=
  let n := Ascii.nat_of_ascii c in
  if (65 <=? n)%nat && (n <=? 90)%nat then Ascii.ascii_of_nat (n + 32) else c.

Fixpoint asciiToLowerCase (s : string) : string :=
  match s with
  | EmptyString => EmptyString
  | String c s' => String (asciiLower c) (asciiToLowerCase s')
  end.

Definition codeCompare (a b : string) : Z :=
  match String.compare a b with
  | Lt => -1
  | Eq => 0
  | Gt => 1
  end.

Definition httpUrl (url : string) : bool :=
  String.prefix "http://" url || String.prefix "https://" url.

Definition asciiHost : Host := {|
  toLowerCase := asciiToLowerCase;
  localeCompare := codeCompare;
  toLocaleDateString := λ d, d;
  createClient := λ url _,
    if httpUrl url then None
    else Some "Invalid supabaseUrl: Must be a valid HTTP or HTTPS URL.";
  setApiKey := λ _, None
|}.

(** ** The dispatcher as the specification words it

    The users in consecutive groups of [batch_size]; within a group one
    send and the short delay per eligible user; the longer delay between
    two groups. *)

Fixpoint groups_fuel {A} (fuel : nat) (batch_size : nat) (l : list A) : list (list A) :=
  match fuel, l with
  | O, _ => []
  | _, [] => []
  | S fuel', _ => take batch_size l :: groups_fuel fuel' batch_size (drop batch_size l)
  end.

Definition groups {A} (batch_size : nat) (l : list A) : list (list A) :=
  groups_fuel (length l) batch_size l.

(** Whether the dispatcher sends to this entry of the mapping. *)
Definition eligible (userIdToEmail : gmap string (option string))
    (entry : string * EventSet) : bool :=
  JS.truthy_str (mjoin (userIdToEmail !! entry.1)) && negb (length entry.2 =? 0)%nat.

(** The sends and sleeps of a trace, the console lines left out. *)
Inductive Pace :=
  | PaceSend (to : string)
  | PaceShort
  | PaceLong
  | PaceOther (ms : Z).

Fixpoint pacing (tr : list Effect) : list Pace :=
  match tr with
  | [] => []
  | SendMail to _ :: tr' => PaceSend to :: pacing tr'
  | Sleep ms :: tr' =>
      (if ms =? DELAY_BETWEEN_EMAILS then PaceShort
       else if ms =? DELAY_BETWEEN_BATCHES then PaceLong
       else PaceOther ms) :: pacing tr'
  | _ :: tr' => pacing tr'
  end.

Definition group_pacing (userIdToEmail : gmap string (option string))
    (group : list (string * EventSet)) : list Pace :=
  group ≫= λ entry,
    if eligible userIdToEmail entry
    then [PaceSend (default "" (mjoin (userIdToEmail !! entry.1))); PaceShort]
    else [].

Fixpoint between_groups (gs : list (list Pace)) : list Pace :=
  match gs with
  | [] => []
  | [g] => g
  | g :: gs' => g ++ PaceLong :: between_groups gs'
  end.

Definition spec_pacing (batch_size : nat) (userIdToEmail : gmap string (option string))
    (usersList : list (string * EventSet)) : list Pace :=
  between_groups (group_pacing userIdToEmail <$> groups batch_size usersList).

(** ** Vocabulary of the properties *)

(** The shape "YYYY-MM-DD": ten characters, the hyphens in place. *)
Definition isoDateShape (s : string) : Prop :=
  String.length s = 10%nat ∧ String.get 4 s = Some "-"%char
  ∧ String.get 7 s = Some "-"%char.

(** The tennis rule as the code decides it: the league filter is falsy
    (null, or the number 0), or it is the league code of the competition,
    1 for "ATP Tour" and 22 for "WTA Tour". *)
Definition tennis_rule (event : Event.t) (alert : Alert.t) : Prop :=
  (Alert.league_id alert = None ∨ Alert.league_id alert = Some 0)
  ∨ (Event.competition event = Some "ATP Tour" ∧ Alert.league_id alert = Some 1)
  ∨ (Event.competition event = Some "WTA Tour" ∧ Alert.league_id alert = Some 22).

(** The tennis rule as the specification words it: no league filter, or
    the league code of the competition. *)
Definition tennis_rule_as_stated (event : Event.t) (alert : Alert.t) : Prop :=
  Alert.league_id alert = None
  ∨ (Event.competition event = Some "ATP Tour" ∧ Alert.league_id alert = Some 1)
  ∨ (Event.competition event = Some "WTA Tour" ∧ Alert.league_id alert = Some 22).

(** The generic rule as the specification words it: no team filter, or the
    team filter resolves to a known team whose lower-cased name is the
    lower-cased value of one of the two participant details. *)
Definition generic_rule_as_stated `{Host} (teamsMap : gmap Z string)
    (event : Event.t) (alert : Alert.t) : Prop :=
  Alert.team_id alert = None
  ∨ ∃ t name, Alert.team_id alert = Some t ∧ teamsMap !! t = Some name
      ∧ (∃ d, (Event.event_detail_1 event = Some d ∨ Event.event_detail_2 event = Some d)
              ∧ name = toLowerCase d).

(** The generic rule in terms of the rows of the teams query: no team
    filter, or the filter is the id of a team whose name, lower-cased, is
    the lower-cased value of one of the two participant details. *)
Definition generic_rule_on_teams `{Host} (teams : list Team.t)
    (event : Event.t) (alert : Alert.t) : Prop :=
  Alert.team_id alert = None
  ∨ ∃ team name d,
      team ∈ teams ∧ Alert.team_id alert = Some (Team.id team)
      ∧ Team.name team = Some name
      ∧ (Event.event_detail_1 event = Some d ∨ Event.event_detail_2 event = Some d)
      ∧ toLowerCase name = toLowerCase d.

(** The user's set holds the event object at this address. *)
Definition holds (m : UserEventsMap) (user_id : string) (a : nat) : Prop :=
  ∃ s, Map_get m user_id = Some s ∧ a ∈ addr <$> s.

(** Every user occurs once, and every set is non-empty and holds an object
    at most once. *)
Definition well_formed (m : UserEventsMap) : Prop :=
  NoDup m.*1 ∧ Forall (λ kv, kv.2 ≠ [] ∧ NoDup (addr <$> kv.2)) m.

(** The objects in the sets are among these. *)
Definition drawn_from (events : list EventObj) (m : UserEventsMap) : Prop :=
  Forall (λ kv, kv.2 ⊆ events) m.

(** One of the user's alerts matches the event. *)
Definition qualifies `{Host} (teamsMap : gmap Z string) (alerts : list Alert.t)
    (user_id : string) (event : Event.t) : Prop :=
  ∃ alert, alert ∈ alerts ∧ Alert.user_id alert = user_id
           ∧ matches teamsMap event alert = true.

(** A group as it is printed: nothing for an empty group, else its header
    and one row per broadcaster. *)
Definition group_lines (label ty : string) (l : list Broadcaster.t)
    : list BroadcasterLine :=
  match l with
  | [] => []
  | _ => GroupHeader label :: ((λ b, BroadcasterRow b ty) <$> l)
  end.

(** The labels of the group headers of a section, in order. *)
Definition headers (section : list BroadcasterLine) : list string :=
  omap (λ line, match line with GroupHeader label => Some label | _ => None end)
       section.

(** C8 as the specification words it: the placeholder alone when the event
    has no broadcaster of type tv and none of type streaming, else exactly
    the two groups, "TV" then "STREAMING". *)
Definition two_groups_as_stated (event : Event.t) (section : list BroadcasterLine)
    : Prop :=
  let shown :=
    filter (λ b, Broadcaster.type b = Some "tv" ∨ Broadcaster.type b = Some "streaming")
           (default [] (Event.broadcasters event)) in
  (shown = [] → section = [NoBroadcaster])
  ∧ (shown ≠ [] → headers section = ["TV"; "STREAMING"]).

#[global] Instance Pace_eq_dec : EqDecision Pace.
Proof. solve_decision. Defined.

(** The number of users of the list the dispatcher sends to. *)
Definition eligible_count (userIdToEmail : gmap string (option string))
    (usersList : list (string * EventSet)) : nat :=
  length (filter (λ entry, eligible userIdToEmail entry = true) usersList).

(** The environment has the three keys (line 11). *)
Definition has_keys (env : Env) : Prop :=
  JS.truthy_str (SENDGRID_API_KEY env) = true
  ∧ JS.truthy_str (SUPABASE_URL env) = true
  ∧ JS.truthy_str (SUPABASE_SERVICE_ROLE_KEY env) = true.

(** What the set-up of lines 16-17 throws, if it throws: the exception of
    [createClient], else that of [sgMail.setApiKey]. *)
Definition setup_error `{Host} (env : Env) : option string :=
  match createClient (valueOf (SUPABASE_URL env))
                     (valueOf (SUPABASE_SERVICE_ROLE_KEY env)) with
  | Some message => Some message
  | None => setApiKey (valueOf (SENDGRID_API_KEY env))
  end.

(** The environment lets the script reach [main]: the three keys are set
    and the two clients are made from them (lines 11-17). *)
Definition configured `{Host} (env : Env) : Prop :=
  has_keys env ∧ setup_error env = None.

(** Every row of the teams query has a name. *)
Definition teams_named (w : World) : Prop :=
  Forall (λ t, is_Some (Team.name t)) (Res.rows (teamsRes w)).

(** No e-mail is sent in the trace. *)
Definition no_send (tr : list Effect) : Prop :=
  ∀ to html, SendMail to html ∉ tr.

(** The trace holds the final summary line. *)
Definition has_summary (tr : list Effect) : Prop :=
  ∃ sent failed, ConsoleLog (LogDone sent failed) ∈ tr.

(** The trace shows that the matching pass was reached. *)
Definition reached_matching (tr : list Effect) : Prop :=
  ∃ n, ConsoleLog (LogPreparing n) ∈ tr.

(** C7 as the specification words it: the run sends nothing and the
    process ends with a status other than zero, the error logged. *)
Definition aborts_with_failure_status (result : option (list Effect * Z)) : Prop :=
  ∃ tr status message,
    result = Some (tr, status) ∧ no_send tr
    ∧ ConsoleError (Caught message) ∈ tr ∧ status ≠ 0.

(** The e-mails of a trace, in order: recipient and body. *)
Fixpoint mails (tr : list Effect) : list (string * Html) :=
  match tr with
  | [] => []
  | SendMail to html :: tr' => (to, html) :: mails tr'
  | _ :: tr' => mails tr'
  end.

(** The e-mail an entry of the mapping stands for: none for a user
    without an address, else the digest of the user's set, rendered. *)
Definition mail_for `{Host} (sportsMap : gmap Z Sport.t)
    (userIdToEmail : gmap string (option string)) (entry : string * EventSet)
    : option (string * Html) :=
  if eligible userIdToEmail entry
  then Some (default "" (mjoin (userIdToEmail !! entry.1)),
             generateEmailHTML (val <$> digestOf entry.2) sportsMap)
  else None.

(** The time a trace spends asleep, in milliseconds. *)
Fixpoint total_sleep (tr : list Effect) : Z :=
  match tr with
  | [] => 0
  | Sleep ms :: tr' => ms + total_sleep tr'
  | _ :: tr' => total_sleep tr'
  end.

(** The console lines that report a send accepted, and a send failed. *)
Definition is_sent_line (e : Effect) : bool :=
  match e with
  | ConsoleLog (LogSent _) => true
  | _ => false
  end.

Definition is_failed_line (e : Effect) : bool :=
  match e with
  | ConsoleError (SendFailed _) => true
  | _ => false
  end.

Definition count_lines (f : Effect → bool) (tr : list Effect) : nat :=
  length (filter (λ e, f e = true) tr).

(** The counters of the dispatcher agree with its trace: as many accepted
    sends as lines "sent", as many failures as error lines, one of the two
    per e-mail, and the accepted ones are the attempts the transport took. *)
Definition tallied (send_ok : nat → bool) (p : Progress) : Prop :=
  sent p = count_lines is_sent_line (trace p)
  ∧ failed p = count_lines is_failed_line (trace p)
  ∧ (sent p + failed p)%nat = length (mails (trace p))
  ∧ sent p = length (filter (λ k, send_ok k = true) (seq 0 (sent p + failed p))).

(** The distinct names of a list, each at the place of its first
    occurrence. *)
Definition seen_add (seen : list string) (u : string) : list string :=
  if decide (u ∈ seen) then seen else seen ++ [u].

Definition first_seen (l : list string) : list string := foldl seen_add [] l.

(** The users of the matching pairs, in the order the two loops of the
    matcher meet the pairs: event by event, alert by alert. *)
Definition matched_users `{Host} (teamsMap : gmap Z string) (events : list EventObj)
    (alerts : list Alert.t) : list string :=
  events ≫= λ o,
    Alert.user_id <$> filter (λ alert, matches teamsMap (val o) alert = true) alerts.

(** [qualifies], decided. *)
Definition qualifies_b `{Host} (teamsMap : gmap Z string) (alerts : list Alert.t)
    (user_id : string) (event : Event.t) : bool :=
  existsb (λ alert, bool_decide (Alert.user_id alert = user_id)
                    && matches teamsMap event alert) alerts.

(** The order of the digest: by [start_at], an absent one read as the
    empty string. *)
Definition starts_no_later `{Host} (a b : EventObj) : Prop :=
  localeCompare (JS.or_str (Event.start_at (val a)) "")
                (JS.or_str (Event.start_at (val b)) "") ≤ 0.

(** ** Concrete inputs *)

Definition atp_event : Event.t :=
  Event.mk 1 20 (Some "ATP Tour") "2024-05-01" (Some "14:30:00")
    (Some "Alcaraz") (Some "Sinner") None (Some "2024-05-01T14:30:00") None.

Definition open_event : Event.t :=
  Event.mk 2 20 (Some "Roland Garros") "2024-05-01" (Some "11:00:00")
    (Some "Swiatek") (Some "Gauff") None (Some "2024-05-01T11:00:00") None.

(** An event with one participant detail only. *)
Definition race_event : Event.t :=
  Event.mk 3 5 (Some "Formula 1") "2024-05-01" (Some "15:00:00")
    (Some "Grand Prix de Monaco") None None (Some "2024-05-01T15:00:00") None.

Definition any_league_alert : Alert.t := Alert.mk 1 "U1" 20 None None.
Definition atp_alert : Alert.t := Alert.mk 2 "U1" 20 (Some 1) None.
Definition wta_alert : Alert.t := Alert.mk 3 "U1" 20 (Some 22) None.
Definition zero_league_alert : Alert.t := Alert.mk 4 "U1" 20 (Some 0) None.

(** An alert on a team the team table does not hold. *)
Definition unknown_team_alert : Alert.t := Alert.mk 5 "U1" 5 None (Some 99).

(** The example of the specification: a team named "Lakers". *)
Definition lakers_rows : list Team.t := [Team.mk 7 (Some "Lakers")].

Definition lakers_teams : gmap Z string :=
  JS.fromEntries [(7, asciiToLowerCase "Lakers")].

Definition lakers_event : Event.t :=
  Event.mk 6 3 (Some "NBA") "2024-05-01" (Some "02:00:00")
    (Some "Celtics") (Some "LAKERS") None (Some "2024-05-01T02:00:00") None.

Definition lakers_alert : Alert.t := Alert.mk 6 "U1" 3 None (Some 7).

Definition some_broadcasters : list Broadcaster.t :=
  [ Broadcaster.mk 1 "TF1" "https://tf1.fr" (Some "tv");
    Broadcaster.mk 2 "DAZN" "https://dazn.com" (Some "streaming");
    Broadcaster.mk 3 "Canal+" "https://canalplus.com" (Some "tv");
    Broadcaster.mk 4 "RMC" "https://rmc.fr" (Some "radio");
    Broadcaster.mk 5 "Eurosport" "https://eurosport.fr" None ].

Definition shown_event : Event.t :=
  enrich (JS.fromEntries ((λ b, (Broadcaster.id b, b)) <$> some_broadcasters))
    (Event.mk 4 20 (Some "ATP Tour") "2024-05-01" (Some "14:30:00")
       (Some "Alcaraz") (Some "Sinner") (Some [1; 2; 3; 4; 5; 6]) None None).

(** An event shown on television only. *)
Definition tv_only_event : Event.t :=
  enrich (JS.fromEntries ((λ b, (Broadcaster.id b, b)) <$> some_broadcasters))
    (Event.mk 7 20 (Some "ATP Tour") "2024-05-01" (Some "14:30:00")
       (Some "Alcaraz") (Some "Sinner") (Some [1]) None None).

Definition some_env : Env :=
  {| SENDGRID_API_KEY := Some "SG.key";
     SUPABASE_URL := Some "https://db.example";
     SUPABASE_SERVICE_ROLE_KEY := Some "service-role" |}.

Definition no_rows {A} : Res.t A := Res.mk None (Some []).

(** The scenario of the specification: 30 April, 20:00 in Paris, hence the
    target date 2024-05-01; one event, one alert, one user. *)
Definition scenario (alert : Alert.t) (events : Res.t Event.t) : World :=
  {| nowParis := DateTime.mk 2024 4 30 20 0 0;
     sportsRes := Res.mk None (Some [Sport.mk 20 "Tennis" "T"]);
     eventsRes := λ date, if decide (date = "2024-05-01") then events else no_rows;
     broadcastersRes := no_rows;
     teamsRes := no_rows;
     alertsRes := Res.mk None (Some [alert]);
     usersRes := Res.mk None (Some [User.mk "U1" (Some "a@b.com")]);
     send_ok := λ _, true |}.

(** The keys set, the URL not one the client library takes. *)
Definition bad_url_env : Env :=
  {| SENDGRID_API_KEY := Some "SG.key";
     SUPABASE_URL := Some "db.example";
     SUPABASE_SERVICE_ROLE_KEY := Some "service-role" |}.

(** The scenario with a teams query of these rows. *)
Definition with_teams (teams : list Team.t) (w : World) : World :=
  {| nowParis := nowParis w;
     sportsRes := sportsRes w;
     eventsRes := eventsRes w;
     broadcastersRes := broadcastersRes w;
     teamsRes := Res.mk None (Some teams);
     alertsRes := alertsRes w;
     usersRes := usersRes w;
     send_ok := send_ok w |}.

Definition events_ok : Res.t Event.t := Res.mk None (Some [atp_event]).

(** A run with the team "Lakers", an alert on it and an event that names
    it in capitals. *)
Definition lakers_world : World :=
  with_teams lakers_rows (scenario lakers_alert (Res.mk None (Some [lakers_event]))).
Definition events_failed : Res.t Event.t := Res.mk (Some "connection refused") None.

(** Twelve users with an address and an event each. *)
Definition twelve_users : list (string * EventSet) :=
  (λ name : string,
     (name, [ {| addr := 0;
                 val := Event.mk 1 20 (Some "ATP Tour") "2024-05-01" (Some "14:30:00")
                          (Some "Alcaraz") (Some "Sinner") None None (Some []) |} ]))
  <$> ["u01"; "u02"; "u03"; "u04"; "u05"; "u06";
       "u07"; "u08"; "u09"; "u10"; "u11"; "u12"].

Definition twelve_addresses : gmap string (option string) :=
  JS.fromEntries ((λ e : string * EventSet, (e.1, Some (e.1 +:+ "@b.com"))) <$> twelve_users).

(** * Properties *)

(** ** The date resolver *)

Module DateFacts.
Import DateTime.

Lemma daysInMonth_bounds y m : 28 ≤ daysInMonth y m ≤ 31.
Proof.
  unfold daysInMonth.
  repeat (case_match; try lia).
Qed.

Lemma next_day_valid dt : valid dt → valid (next_day dt).
Proof.
  unfold valid, next_day. intros (Hm & Hd & Hh & Hmi & Hs).
  pose proof (daysInMonth_bounds (year dt) (month dt)).
  pose proof (daysInMonth_bounds (year dt) (month dt + 1)).
  pose proof (daysInMonth_bounds (year dt + 1) 1).
  destruct (Z.ltb_spec (day dt) (daysInMonth (year dt) (month dt))); simpl;
    [lia|].
  destruct (Z.ltb_spec (month dt) 12); simpl; lia.
Qed.

Lemma next_day_time dt :
  hour (next_day dt) = hour dt ∧ minute (next_day dt) = minute dt
  ∧ second (next_day dt) = second dt.
Proof. unfold next_day. by repeat case_match. Qed.

(** A year has 365 days, and one more when it is a leap year. *)
Lemma days_before_year_succ y :
  days_before_year (y + 1) = days_before_year y + (if isLeapYear y then 366 else 365).
Proof.
  unfold days_before_year, isLeapYear.
  replace (y + 1 - 1) with y by lia.
  destruct (Z.eqb_spec (y mod 4) 0), (Z.eqb_spec (y mod 100) 0),
    (Z.eqb_spec (y mod 400) 0); simpl;
    Z.div_mod_to_equations; lia.
Qed.

Lemma days_before_december y :
  days_before_month_from y 11 = if isLeapYear y then 335 else 334.
Proof.
  unfold days_before_month_from, daysInMonth. simpl.
  destruct (isLeapYear y); reflexivity.
Qed.

Lemma daysInMonth_december y : daysInMonth y 12 = 31.
Proof. reflexivity. Qed.

Lemma next_day_day_number dt :
  valid dt → day_number (next_day dt) = day_number dt + 1.
Proof.
  unfold valid, next_day, day_number. intros (Hm & Hd & _).
  destruct (Z.ltb_spec (day dt) (daysInMonth (year dt) (month dt))); simpl;
    [lia|].
  assert (day dt = daysInMonth (year dt) (month dt)) as Hlast by lia.
  destruct (Z.ltb_spec (month dt) 12); simpl.
  - replace (Z.to_nat (month dt + 1 - 1)) with (S (Z.to_nat (month dt - 1))) by lia.
    simpl days_before_month_from.
    replace (Z.of_nat (S (Z.to_nat (month dt - 1)))) with (month dt) by lia.
    lia.
  - assert (month dt = 12) as Hdec by lia.
    rewrite Hlast, Hdec, days_before_year_succ.
    change (Z.to_nat (12 - 1)) with 11%nat.
    rewrite days_before_december, daysInMonth_december.
    destruct (isLeapYear (year dt)); simpl; lia.
Qed.

End DateFacts.

Lemma toISODate_shape dt :
  0 ≤ DateTime.year dt ≤ 9999 → isoDateShape (DateTime.toISODate dt).
Proof.
  intros Hy. unfold DateTime.toISODate, DateTime.isoYear.
  destruct (Z.leb_spec 0 (DateTime.year dt)); [|lia].
  destruct (Z.leb_spec (DateTime.year dt) 9999); [|lia].
  by cbn.
Qed.

(** C5. The date resolver depends on the civil time in Paris only: an hour
    below 6 gives today's date, any other hour gives the date of the next
    calendar day (a valid date, one day later in the day count), printed as
    "YYYY-MM-DD"; two instants with the same civil date that fall on the
    same side of 6 o'clock give the same target date. *)
Theorem date_resolver_rule (now : DateTime.t) :
  DateTime.valid now →
  (DateTime.hour now < 6 → targetDate now = DateTime.toISODate now)
  ∧ (6 ≤ DateTime.hour now →
       let tomorrow := DateTime.plus_days 1 now in
       targetDate now = DateTime.toISODate tomorrow
       ∧ DateTime.valid tomorrow
       ∧ DateTime.day_number tomorrow = DateTime.day_number now + 1)
  ∧ (0 ≤ DateTime.year now < 9999 → isoDateShape (targetDate now))
  ∧ (∀ other : DateTime.t,
       DateTime.year other = DateTime.year now →
       DateTime.month other = DateTime.month now →
       DateTime.day other = DateTime.day now →
       (DateTime.hour other < 6 ↔ DateTime.hour now < 6) →
       targetDate other = targetDate now).
Proof.
  intros Hvalid. unfold targetDate, resolveTargetDate.
  split; [|split; [|split]].
  - intros Hh. destruct (Z.ltb_spec (DateTime.hour now) 6); [done | lia].
  - intros Hh. destruct (Z.ltb_spec (DateTime.hour now) 6); [lia|].
    split; [done|]. simpl.
    split; [by apply DateFacts.next_day_valid
           | by apply DateFacts.next_day_day_number].
  - intros Hy. destruct (Z.ltb_spec (DateTime.hour now) 6); simpl.
    + apply toISODate_shape. lia.
    + apply toISODate_shape. unfold DateTime.next_day.
      repeat case_match; simpl; lia.
  - intros other Hy Hm Hd Hside.
    assert ((DateTime.hour other <? 6) = (DateTime.hour now <? 6)) as ->.
    { destruct (Z.ltb_spec (DateTime.hour other) 6),
        (Z.ltb_spec (DateTime.hour now) 6); try done; lia. }
    destruct (DateTime.hour now <? 6); simpl.
    + unfold DateTime.toISODate. by rewrite Hy, Hm, Hd.
    + unfold DateTime.toISODate, DateTime.next_day. rewrite Hy, Hm, Hd.
      by repeat case_match.
Qed.

Lemma date_resolver_rule_witness :
  targetDate (DateTime.mk 2024 12 31 6 0 0) = "2025-01-01"
  ∧ targetDate (DateTime.mk 2024 12 31 5 59 59) = "2024-12-31".
Proof.
  assert (DateTime.valid (DateTime.mk 2024 12 31 6 0 0)) as H6
    by (repeat split; by vm_compute).
  assert (DateTime.valid (DateTime.mk 2024 12 31 5 59 59)) as H5
    by (repeat split; by vm_compute).
  split.
  - refine (proj1 (proj1 (proj2 (date_resolver_rule _ H6)) _)). simpl. lia.
  - refine (proj1 (date_resolver_rule _ H5) _). simpl. lia.
Defined.

(** The boundary of the rule: 05:59 is today, 06:00 is tomorrow, also on
    the days the clocks change in Paris (31 March and 27 October 2024). *)
Example boundary_0559 :
  targetDate (DateTime.mk 2024 3 31 5 59 0) = "2024-03-31"
  ∧ targetDate (DateTime.mk 2024 10 27 5 59 0) = "2024-10-27".
Proof. by split. Qed.

Example boundary_0600 :
  targetDate (DateTime.mk 2024 3 31 6 0 0) = "2024-04-01"
  ∧ targetDate (DateTime.mk 2024 10 27 6 0 0) = "2024-10-28"
  ∧ targetDate (DateTime.mk 2024 2 28 6 0 0) = "2024-02-29".
Proof. by repeat split. Qed.

(** ** The event enricher *)

Lemma filterBoolean_omap {A} (l : list (option A)) : filterBoolean l = omap id l.
Proof.
  induction l as [|[x|] l IH]; simpl; [done | by rewrite IH | done].
Qed.

Lemma resolveBroadcasters_omap (bm : gmap Z Broadcaster.t) (ids : option (list Z)) :
  resolveBroadcasters bm ids = omap (λ id, bm !! id) (default [] ids).
Proof.
  unfold resolveBroadcasters. rewrite filterBoolean_omap.
  induction (default [] ids) as [|i l IH]; csimpl; [done|].
  destruct (bm !! i); csimpl; by rewrite IH.
Qed.

(** The table built by [Object.fromEntries] holds, for an id, the last row
    with that id, and nothing for an id no row has. *)
Lemma fromEntries_snoc `{Countable K} {V} (l : list (K * V)) (kv : K * V) :
  JS.fromEntries (l ++ [kv]) = <[kv.1 := kv.2]> (JS.fromEntries l).
Proof. unfold JS.fromEntries. by rewrite foldl_app. Qed.

Lemma fromEntries_lookup_Some `{Countable K} {V} (l : list (K * V)) (k : K) (v : V) :
  JS.fromEntries l !! k = Some v → (k, v) ∈ l.
Proof.
  induction l as [|kv l IH] using rev_ind.
  - unfold JS.fromEntries. simpl. by rewrite lookup_empty.
  - rewrite fromEntries_snoc, lookup_insert. case_decide as Hk.
    + intros [= <-]. rewrite elem_of_app, list_elem_of_singleton.
      right. destruct kv; simpl in *; by subst.
    + intros Hl. apply elem_of_app. left. by apply IH.
Qed.

Lemma fromEntries_lookup_None `{Countable K} {V} (l : list (K * V)) (k : K) :
  JS.fromEntries l !! k = None ↔ k ∉ l.*1.
Proof.
  induction l as [|kv l IH] using rev_ind.
  - unfold JS.fromEntries. simpl. rewrite lookup_empty.
    split; [intros _; apply not_elem_of_nil | done].
  - rewrite fromEntries_snoc, lookup_insert, fmap_app, not_elem_of_app. simpl.
    rewrite list_elem_of_singleton. case_decide as Hk.
    + split; [done | intros [_ Hne]; by subst].
    + rewrite IH. split; [intros Hl; split; [done | congruence] | by intros [? _]].
Qed.

(** C9. The enricher gives an event the broadcaster records its id list
    resolves to, in the order of the list; an id the table does not hold is
    left out, an absent list gives the empty list, and the other fields of
    the event stay as they were. The function is total: no input makes it
    fail. *)
Theorem enricher_resolves_in_order (bm : gmap Z Broadcaster.t) (e : Event.t) :
  Event.broadcasters (enrich bm e)
    = Some (omap (λ id, bm !! id) (default [] (Event.broadcaster_ids e)))
  ∧ (∀ ids id,
       resolveBroadcasters bm (Some (ids ++ [id]))
       = resolveBroadcasters bm (Some ids)
         ++ match bm !! id with Some b => [b] | None => [] end)
  ∧ (Event.broadcaster_ids e = None ∨ Event.broadcaster_ids e = Some [] →
       Event.broadcasters (enrich bm e) = Some [])
  ∧ (∀ b, b ∈ resolveBroadcasters bm (Event.broadcaster_ids e)
          ↔ ∃ id, id ∈ default [] (Event.broadcaster_ids e) ∧ bm !! id = Some b)
  ∧ (Event.id (enrich bm e), Event.sport_id (enrich bm e),
     Event.competition (enrich bm e), Event.event_detail_1 (enrich bm e),
     Event.event_detail_2 (enrich bm e), Event.start_at (enrich bm e))
    = (Event.id e, Event.sport_id e, Event.competition e,
       Event.event_detail_1 e, Event.event_detail_2 e, Event.start_at e).
Proof.
  split; [|split; [|split; [|split]]].
  - simpl. by rewrite resolveBroadcasters_omap.
  - intros ids id. rewrite !resolveBroadcasters_omap. simpl.
    rewrite omap_app. simpl. by destruct (bm !! id).
  - intros [Hids | Hids]; simpl; by rewrite Hids.
  - intros b. rewrite resolveBroadcasters_omap, list_elem_of_omap. naive_solver.
  - done.
Qed.

(** The event objects of a run are distinct: each row of the events query
    is an object of its own, and enrichment keeps the object. *)
Lemma allocate_addrs (rows : list Event.t) :
  addr <$> allocate rows = seq 0 (length rows).
Proof.
  unfold allocate. rewrite fmap_imap.
  rewrite (imap_ext _ (λ j _, id j)) by done.
  by rewrite imap_seq_0, list_fmap_id.
Qed.

Lemma enrichAll_addrs (bm : gmap Z Broadcaster.t) (events : list EventObj) :
  addr <$> enrichAll bm events = addr <$> events.
Proof. unfold enrichAll. rewrite <- list_fmap_compose. by apply list_fmap_ext. Qed.

Lemma eventsOf_distinct `{Host} (w : World) : NoDup (addr <$> eventsOf w).
Proof.
  unfold eventsOf. rewrite enrichAll_addrs, allocate_addrs. apply NoDup_seq.
Qed.

(** Three ids, the second unknown to the table: two records, in order. *)
Example enricher_drops_unknown_id :
  let tf1 := Broadcaster.mk 1 "TF1" "https://tf1.fr" (Some "tv") in
  let dazn := Broadcaster.mk 3 "DAZN" "https://dazn.com" (Some "streaming") in
  resolveBroadcasters (JS.fromEntries [(1, tf1); (3, dazn)]) (Some [3; 2; 1])
  = [dazn; tf1].
Proof. reflexivity. Qed.

(** ** The matcher: the decision for one event and one alert *)

Section MatchFacts.
Context `{Host}.

Lemma truthy_num_false (v : option Z) :
  JS.truthy_num v = false ↔ v = None ∨ v = Some 0.
Proof.
  destruct v as [n|]; simpl.
  - destruct (Z.eqb_spec n 0) as [->|Hn]; simpl.
    + split; [by right | done].
    + split; [done | intros [[=]|[=]]; done].
  - split; [by left | done].
Qed.

Lemma leagueOf_cases (competition : option string) :
  (competition = Some "ATP Tour" ∧ leagueOf competition = Some 1)
  ∨ (competition = Some "WTA Tour" ∧ leagueOf competition = Some 22)
  ∨ (competition ≠ Some "ATP Tour" ∧ competition ≠ Some "WTA Tour"
     ∧ leagueOf competition = None).
Proof.
  unfold leagueOf. repeat case_decide; naive_solver.
Qed.

Lemma matches_same_sport teamsMap event alert :
  Alert.sport_id alert = Event.sport_id event →
  matches teamsMap event alert = isMatch teamsMap event alert.
Proof.
  intros Hs. unfold matches. by rewrite Hs, Z.eqb_refl.
Qed.

Lemma matches_tennis teamsMap event alert :
  Event.sport_id event = 20 → Alert.sport_id alert = 20 →
  matches teamsMap event alert
  = negb (JS.truthy_num (Alert.league_id alert))
    || bool_decide (Alert.league_id alert = leagueOf (Event.competition event)).
Proof.
  intros He Ha. rewrite matches_same_sport by congruence.
  unfold isMatch. by rewrite He.
Qed.

Lemma matches_generic teamsMap event alert :
  Event.sport_id event ≠ 20 → Alert.sport_id alert = Event.sport_id event →
  matches teamsMap event alert
  = negb (JS.truthy_num (Alert.team_id alert))
    || JS.includes
         [lowerOpt (Event.event_detail_1 event); lowerOpt (Event.event_detail_2 event)]
         (Alert.team_id alert ≫= λ id, teamsMap !! id).
Proof.
  intros He Ha. rewrite matches_same_sport by done.
  unfold isMatch. by destruct (Z.eqb_spec (Event.sport_id event) 20).
Qed.

(** The tennis branch for one pair: the decision is [tennis_rule], and a
    league_id other than null, 0, 1 and 22 matches no tennis event. *)
Lemma tennis_pair_rule (teamsMap : gmap Z string) (event : Event.t) (alert : Alert.t) :
  Event.sport_id event = 20 →
  Alert.sport_id alert = 20 →
  (matches teamsMap event alert = true ↔ tennis_rule event alert)
  ∧ (∀ l, Alert.league_id alert = Some l → l ≠ 0 → l ≠ 1 → l ≠ 22 →
       matches teamsMap event alert = false).
Proof.
  intros He Ha. unfold tennis_rule. rewrite matches_tennis by done.
  pose proof (truthy_num_false (Alert.league_id alert)) as Hfalsy.
  destruct (leagueOf_cases (Event.competition event))
    as [(Hc & Hl) | [(Hc & Hl) | (Hc1 & Hc2 & Hl)]]; rewrite Hl; clear Hl.
  all: split.
  all: try (intros l Hl ? ? ?; rewrite Hl; simpl;
            destruct (Z.eqb_spec l 0); [done|]; simpl;
            first [done | apply bool_decide_eq_false; congruence]).
  all: rewrite orb_true_iff, negb_true_iff, bool_decide_eq_true, Hfalsy.
  all: intuition congruence.
Qed.

(** An alert on another sport than the event's does not match, whatever the
    other fields are, and the loop body leaves the mapping as it is. *)
Lemma other_sport_no_match (teamsMap : gmap Z string) (event : EventObj)
    (alert : Alert.t) (m : UserEventsMap) :
  Alert.sport_id alert ≠ Event.sport_id (val event) →
  matches teamsMap (val event) alert = false
  ∧ match_alert teamsMap event m alert = m.
Proof.
  intros Hs. unfold matches, match_alert.
  by destruct (Z.eqb_spec (Alert.sport_id alert) (Event.sport_id (val event))).
Qed.

Lemma match_alert_matches teamsMap event m alert :
  match_alert teamsMap event m alert
  = if matches teamsMap (val event) alert
    then record_match m (Alert.user_id alert) event
    else m.
Proof.
  unfold match_alert, matches.
  by destruct (negb (Alert.sport_id alert =? Event.sport_id (val event))).
Qed.

End MatchFacts.

(** ** The matcher: the mapping it builds *)

Section MapFacts.

Lemma Map_get_set m k v k' :
  Map_get (Map_set m k v) k' = if decide (k = k') then Some v else Map_get m k'.
Proof.
  induction m as [|[k0 v0] m IH]; simpl.
  - repeat case_decide; congruence.
  - destruct (decide (k0 = k)) as [->|Hk0]; simpl.
    + repeat case_decide; congruence.
    + rewrite IH. repeat case_decide; congruence.
Qed.

Lemma Map_get_elem m k v : Map_get m k = Some v → (k, v) ∈ m.
Proof.
  induction m as [|[k0 v0] m IH]; simpl; [done|].
  case_decide as Hk.
  - intros [= ->]. subst. apply list_elem_of_here.
  - intros Hg. apply list_elem_of_further. by apply IH.
Qed.

Lemma Map_get_None m k : Map_get m k = None ↔ k ∉ m.*1.
Proof.
  induction m as [|[k0 v0] m IH]; simpl.
  - split; [intros _; apply not_elem_of_nil | done].
  - rewrite not_elem_of_cons. case_decide as Hk.
    + split; [done | intros [Hne _]; congruence].
    + rewrite IH. split; [intros ?; split; [congruence | done] | by intros [_ ?]].
Qed.

Lemma Map_get_NoDup m k v : NoDup m.*1 → (k, v) ∈ m → Map_get m k = Some v.
Proof.
  induction m as [|[k0 v0] m IH]; simpl.
  - intros _ Hin. by apply elem_of_nil in Hin.
  - rewrite NoDup_cons. intros [Hnotin Hnd] Hin.
    apply elem_of_cons in Hin as [[= -> ->]|Hin].
    + by rewrite decide_True.
    + rewrite decide_False; [by apply IH|].
      intros ->. apply Hnotin, list_elem_of_fmap. by exists (k, v).
Qed.

Lemma Map_set_keys m k v :
  (Map_set m k v).*1 = if decide (k ∈ m.*1) then m.*1 else m.*1 ++ [k].
Proof.
  induction m as [|[k0 v0] m IH].
  - done.
  - simpl Map_set. destruct (decide (k0 = k)) as [->|Hk0]; csimpl.
    + rewrite decide_True; [done | apply list_elem_of_here].
    + rewrite IH. destruct (decide (k ∈ m.*1)) as [Hin|Hnotin].
      * rewrite decide_True; [done | by apply list_elem_of_further].
      * rewrite decide_False; [done|].
        rewrite not_elem_of_cons. split; congruence.
Qed.

Lemma Map_set_NoDup m k v : NoDup m.*1 → NoDup (Map_set m k v).*1.
Proof.
  intros Hnd. rewrite Map_set_keys. case_decide as Hin; [done|].
  apply NoDup_app. split; [done|]. split; [|apply NoDup_singleton].
  intros x Hx Hx'. apply list_elem_of_singleton in Hx'. by subst.
Qed.

Lemma Map_set_Forall (P : string * EventSet → Prop) m k v :
  Forall P m → P (k, v) → Forall P (Map_set m k v).
Proof.
  intros Hm Hkv. induction Hm as [|[k0 v0] m Hx Hm IH]; simpl.
  - by apply Forall_singleton.
  - case_decide; by constructor.
Qed.

Lemma Map_has_get m k : Map_has m k = true ↔ is_Some (Map_get m k).
Proof. unfold Map_has. apply bool_decide_eq_true. Qed.

Lemma Set_add_addrs s o :
  ∀ a, a ∈ addr <$> Set_add s o ↔ a ∈ addr <$> s ∨ a = addr o.
Proof.
  intros a. unfold Set_add, Set_has. case_bool_decide as Hin.
  - split; [by left | intros [? | ->]; done].
  - rewrite fmap_app, elem_of_app. simpl. by rewrite list_elem_of_singleton.
Qed.

Lemma Set_add_NoDup s o : NoDup (addr <$> s) → NoDup (addr <$> Set_add s o).
Proof.
  intros Hnd. unfold Set_add, Set_has. case_bool_decide as Hin; [done|].
  rewrite fmap_app. apply NoDup_app. split; [done|].
  split; [|apply NoDup_singleton].
  intros x Hx Hx'. apply list_elem_of_singleton in Hx'. by subst.
Qed.

Lemma Set_add_nonempty s o : Set_add s o ≠ [].
Proof.
  unfold Set_add, Set_has. case_bool_decide as Hin.
  - intros ->. by apply elem_of_nil in Hin.
  - by destruct s.
Qed.

Lemma Set_add_subseteq (events : list EventObj) s o :
  s ⊆ events → o ∈ events → Set_add s o ⊆ events.
Proof.
  intros Hs Ho. unfold Set_add. case_match; [done|].
  intros x Hx. apply elem_of_app in Hx as [Hx|Hx]; [by apply Hs|].
  apply list_elem_of_singleton in Hx. by subst.
Qed.

Lemma Map_set_set m k v v' : Map_set (Map_set m k v) k v' = Map_set m k v'.
Proof.
  induction m as [|[k0 v0] m IH]; simpl.
  - by rewrite decide_True.
  - destruct (decide (k0 = k)) as [->|Hk0]; simpl.
    + by rewrite decide_True.
    + by rewrite decide_False, IH.
Qed.

(** What lines 84-85 do to the mapping: the user's set, created empty if
    the user was not there, gains the event; no other user is touched. *)
Lemma record_match_eq m u o :
  record_match m u o = Map_set m u (Set_add (default [] (Map_get m u)) o).
Proof.
  unfold record_match.
  destruct (Map_has m u) eqn:Hhas.
  - apply Map_has_get in Hhas as [s Hs]. by rewrite Hs.
  - assert (Map_get m u = None) as Hnone.
    { destruct (Map_get m u) eqn:Hg; [|done].
      assert (Map_has m u = true) by (apply Map_has_get; by rewrite Hg).
      congruence. }
    rewrite Map_get_set, decide_True by done.
    by rewrite Hnone, Map_set_set.
Qed.

Lemma record_match_get m u o u' :
  Map_get (record_match m u o) u'
  = if decide (u = u') then Some (Set_add (default [] (Map_get m u)) o)
    else Map_get m u'.
Proof. by rewrite record_match_eq, Map_get_set. Qed.

Lemma record_match_holds m u o u' a :
  holds (record_match m u o) u' a ↔ holds m u' a ∨ (u' = u ∧ a = addr o).
Proof.
  unfold holds. rewrite record_match_get. case_decide as Hu.
  - subst u'. split.
    + intros (s & [= <-] & Ha). apply Set_add_addrs in Ha as [Ha | ->]; [|by right].
      left. destruct (Map_get m u) as [s|]; simpl in Ha; [by exists s|].
      by apply elem_of_nil in Ha.
    + intros Hor. eexists. split; [done|]. apply Set_add_addrs.
      destruct Hor as [(s & Hs & Ha) | [_ ->]]; [|by right].
      left. by rewrite Hs.
  - split; [by left | intros [?|[? _]]; congruence].
Qed.

Lemma record_match_well_formed m u o :
  well_formed m → well_formed (record_match m u o).
Proof.
  intros [Hnd Hall]. rewrite record_match_eq.
  split; [by apply Map_set_NoDup|].
  apply Map_set_Forall; [done|]. simpl.
  split; [apply Set_add_nonempty|]. apply Set_add_NoDup.
  destruct (Map_get m u) as [s|] eqn:Hget; simpl; [|apply NoDup_nil_2].
  apply Map_get_elem in Hget. rewrite Forall_forall in Hall.
  by destruct (Hall _ Hget).
Qed.

Lemma record_match_drawn_from events m u o :
  drawn_from events m → o ∈ events → drawn_from events (record_match m u o).
Proof.
  intros Hall Ho. rewrite record_match_eq.
  apply Map_set_Forall; [done|]. simpl.
  apply Set_add_subseteq; [|done].
  destruct (Map_get m u) as [s|] eqn:Hget; simpl.
  - apply Map_get_elem in Hget. unfold drawn_from in Hall.
    rewrite Forall_forall in Hall. apply (Hall _ Hget).
  - intros x Hx. by apply elem_of_nil in Hx.
Qed.

End MapFacts.

(** [Array.prototype.sort] rearranges: whatever the comparator, the result
    has the elements of the array, each as often as before. *)
Lemma sort_insert_perm {A} (cmp : A → A → Z) (x : A) (l : list A) :
  JS.sort_insert cmp x l ≡ₚ x :: l.
Proof.
  induction l as [|y l IH]; simpl; [done|].
  case_match; [done|]. rewrite IH. apply Permutation_swap.
Qed.

Lemma sort_perm {A} (cmp : A → A → Z) (l : list A) : JS.sort cmp l ≡ₚ l.
Proof.
  induction l as [|x l IH]; simpl; [done|].
  rewrite sort_insert_perm. by rewrite IH.
Qed.

Lemma NoDup_fmap_eq {A B} (f : A → B) (l : list A) (x y : A) :
  NoDup (f <$> l) → x ∈ l → y ∈ l → f x = f y → x = y.
Proof.
  induction l as [|z l IH]; csimpl.
  - intros _ Hx. by apply elem_of_nil in Hx.
  - rewrite NoDup_cons. intros [Hz Hnd] Hx Hy Hf.
    apply elem_of_cons in Hx as [->|Hx]; apply elem_of_cons in Hy as [->|Hy].
    + done.
    + exfalso. apply Hz. rewrite Hf. apply list_elem_of_fmap. by exists y.
    + exfalso. apply Hz. rewrite <- Hf. apply list_elem_of_fmap. by exists x.
    + by apply IH.
Qed.

Lemma NoDup_count_one {A} `{EqDecision B} (f : A → B) (l : list A) (x : A) :
  NoDup (f <$> l) → x ∈ l → length (filter (λ y, f y = f x) l) = 1%nat.
Proof.
  induction l as [|z l IH]; csimpl; intros Hnd Hx.
  - by apply elem_of_nil in Hx.
  - apply NoDup_cons in Hnd as [Hz Hnd]. rewrite filter_cons.
    apply elem_of_cons in Hx as [->|Hx].
    + rewrite decide_True by done. simpl. f_equal.
      apply length_zero_iff_nil, elem_of_nil_inv.
      intros y Hy. apply list_elem_of_filter in Hy as [Hf Hy].
      apply Hz. rewrite <- Hf. apply list_elem_of_fmap. by exists y.
    + rewrite decide_False; [by apply IH|].
      intros Hf. apply Hz. rewrite Hf. apply list_elem_of_fmap. by exists x.
Qed.

Section MatcherFacts.
Context `{Host}.

Implicit Types (teamsMap : gmap Z string) (m : UserEventsMap).

Lemma match_event_holds teamsMap alerts o m u a :
  holds (match_event teamsMap alerts m o) u a
  ↔ holds m u a ∨ (a = addr o ∧ qualifies teamsMap alerts u (val o)).
Proof.
  unfold match_event, qualifies. revert m.
  induction alerts as [|al alerts IH]; intros m; simpl.
  - split; [by left|]. intros [?|(_ & al & Hin & _)]; [done|].
    by apply elem_of_nil in Hin.
  - rewrite IH, match_alert_matches.
    destruct (matches teamsMap (val o) al) eqn:Hm.
    + rewrite record_match_holds. split.
      * intros [[?|[-> ->]]|(-> & al' & Hin & Hu & Hal)]; [by left | right..].
        -- split; [done|]. exists al. split; [apply list_elem_of_here | done].
        -- split; [done|]. exists al'. split; [by apply list_elem_of_further | done].
      * intros [?|(-> & al' & Hin & Hu & Hal)]; [by left; left|].
        apply elem_of_cons in Hin as [->|Hin].
        -- left. right. done.
        -- right. split; [done|]. by exists al'.
    + split.
      * intros [?|(-> & al' & Hin & Hu & Hal)]; [by left|].
        right. split; [done|]. exists al'.
        split; [by apply list_elem_of_further | done].
      * intros [?|(-> & al' & Hin & Hu & Hal)]; [by left|].
        apply elem_of_cons in Hin as [->|Hin]; [congruence|].
        right. split; [done|]. by exists al'.
Qed.

Lemma matcher_holds_from teamsMap alerts events m u a :
  holds (foldl (match_event teamsMap alerts) m events) u a
  ↔ holds m u a
    ∨ ∃ o, o ∈ events ∧ addr o = a ∧ qualifies teamsMap alerts u (val o).
Proof.
  revert m. induction events as [|o events IH]; intros m; simpl.
  - split; [by left|]. intros [?|(o & Hin & _)]; [done|].
    by apply elem_of_nil in Hin.
  - rewrite IH, match_event_holds. split.
    + intros [[?|[-> Hq]]|(o' & Hin & Ha & Hq)]; [by left | right..].
      * exists o. split; [apply list_elem_of_here | done].
      * exists o'. split; [by apply list_elem_of_further | done].
    + intros [?|(o' & Hin & Ha & Hq)]; [by left; left|].
      apply elem_of_cons in Hin as [->|Hin].
      * left. right. done.
      * right. by exists o'.
Qed.

(** The mapping the matcher returns holds, for a user, exactly the events
    that one of the user's alerts matches. *)
Lemma matcher_holds teamsMap events alerts u a :
  holds (matcher teamsMap events alerts) u a
  ↔ ∃ o, o ∈ events ∧ addr o = a ∧ qualifies teamsMap alerts u (val o).
Proof.
  unfold matcher. rewrite matcher_holds_from. split; [|by right].
  intros [(s & Hs & _)|?]; done.
Qed.

Lemma match_event_well_formed teamsMap alerts m o :
  well_formed m → well_formed (match_event teamsMap alerts m o).
Proof.
  unfold match_event. revert m.
  induction alerts as [|al alerts IH]; intros m Hm; simpl; [done|].
  apply IH. rewrite match_alert_matches.
  case_match; [by apply record_match_well_formed | done].
Qed.

Lemma matcher_well_formed teamsMap events alerts :
  well_formed (matcher teamsMap events alerts).
Proof.
  unfold matcher.
  assert (well_formed []) as Hnil by (split; [apply NoDup_nil_2 | done]).
  revert Hnil. generalize ([] : UserEventsMap).
  induction events as [|o events IH]; intros m Hm; simpl; [done|].
  by apply IH, match_event_well_formed.
Qed.

Lemma match_event_drawn_from teamsMap alerts all m o :
  o ∈ all → drawn_from all m → drawn_from all (match_event teamsMap alerts m o).
Proof.
  intros Ho. unfold match_event. revert m.
  induction alerts as [|al alerts IH]; intros m Hm; simpl; [done|].
  apply IH. rewrite match_alert_matches.
  case_match; [by apply record_match_drawn_from | done].
Qed.

Lemma matcher_drawn_from_within teamsMap alerts all events m :
  events ⊆ all → drawn_from all m →
  drawn_from all (foldl (match_event teamsMap alerts) m events).
Proof.
  revert m. induction events as [|o events IH]; intros m Hsub Hm; simpl; [done|].
  apply IH.
  - intros x Hx. by apply Hsub, list_elem_of_further.
  - apply match_event_drawn_from; [|done]. apply Hsub, list_elem_of_here.
Qed.

Lemma matcher_drawn_from teamsMap events alerts :
  drawn_from events (matcher teamsMap events alerts).
Proof.
  apply matcher_drawn_from_within; [done | apply Forall_nil_2].
Qed.

(** An entry of the mapping: its events are events of the run that an
    alert of the user matches. *)
Lemma matcher_entry teamsMap events alerts u s o :
  (u, s) ∈ matcher teamsMap events alerts → o ∈ s →
  Map_get (matcher teamsMap events alerts) u = Some s
  ∧ o ∈ events
  ∧ (NoDup (addr <$> events) → qualifies teamsMap alerts u (val o)).
Proof.
  intros Hentry Ho.
  destruct (matcher_well_formed teamsMap events alerts) as [Hnd _].
  pose proof (Map_get_NoDup _ _ _ Hnd Hentry) as Hget.
  pose proof (matcher_drawn_from teamsMap events alerts) as Hfrom.
  unfold drawn_from in Hfrom. rewrite Forall_forall in Hfrom.
  pose proof (Hfrom _ Hentry o Ho) as Hev. simpl in Hev.
  split; [done|]. split; [done|]. intros Hinj.
  assert (holds (matcher teamsMap events alerts) u (addr o)) as Hh.
  { exists s. split; [done|]. apply list_elem_of_fmap. by exists o. }
  apply matcher_holds in Hh as (o' & Ho' & Ha & Hq).
  by rewrite <- (NoDup_fmap_eq addr events o' o Hinj Ho' Hev Ha).
Qed.

End MatcherFacts.

Section MatcherClaims.
Context `{Host}.

Implicit Types (teamsMap : gmap Z string) (m : UserEventsMap).

(** C1, as the code has it. For a tennis event of the run, an alert on
    tennis matches it exactly when the alert's league_id is falsy (null, or
    the number 0) or is the league code of the event's competition (1 for
    "ATP Tour", 22 for "WTA Tour", none for any other competition); a
    league_id other than null, 0, 1 and 22 matches no tennis event; and the
    matcher puts the event in a user's set exactly when one of that user's
    tennis alerts passes this rule. *)
Theorem tennis_match_rule teamsMap (events : list EventObj) (alerts : list Alert.t)
    (o : EventObj) :
  o ∈ events →
  NoDup (addr <$> events) →
  Event.sport_id (val o) = 20 →
  (∀ alert, Alert.sport_id alert = 20 →
     (matches teamsMap (val o) alert = true ↔ tennis_rule (val o) alert)
     ∧ (∀ l, Alert.league_id alert = Some l → l ≠ 0 → l ≠ 1 → l ≠ 22 →
          matches teamsMap (val o) alert = false))
  ∧ (∀ u, holds (matcher teamsMap events alerts) u (addr o)
          ↔ ∃ alert, alert ∈ alerts ∧ Alert.user_id alert = u
                     ∧ Alert.sport_id alert = 20 ∧ tennis_rule (val o) alert).
Proof.
  intros Ho Hinj Hs. split.
  - intros alert Ha. by apply tennis_pair_rule.
  - intros u. rewrite matcher_holds. split.
    + intros (o' & Ho' & Haddr & alert & Hin & Hu & Hm).
      rewrite (NoDup_fmap_eq addr events o' o Hinj Ho' Ho Haddr) in Hm.
      assert (Alert.sport_id alert = 20) as Ha.
      { unfold matches in Hm. rewrite <- Hs.
        by destruct (Z.eqb_spec (Alert.sport_id alert) (Event.sport_id (val o))). }
      exists alert. repeat split; try done.
      by apply (tennis_pair_rule teamsMap).
    + intros (alert & Hin & Hu & Ha & Hrule).
      exists o. repeat split; try done. exists alert. repeat split; try done.
      by apply (tennis_pair_rule teamsMap).
Qed.

(** The generic branch for one pair, as the code decides it: the team
    filter is falsy, or what the team table gives for it is one of the two
    lower-cased details. A missing table entry and a missing detail are
    both [undefined], and [includes] finds one in the other. *)
Lemma generic_pair_rule teamsMap (event : Event.t) (alert : Alert.t) :
  Event.sport_id event ≠ 20 →
  Alert.sport_id alert = Event.sport_id event →
  (matches teamsMap event alert = true
   ↔ (Alert.team_id alert = None ∨ Alert.team_id alert = Some 0)
     ∨ ∃ t, Alert.team_id alert = Some t
            ∧ (teamsMap !! t = lowerOpt (Event.event_detail_1 event)
               ∨ teamsMap !! t = lowerOpt (Event.event_detail_2 event))).
Proof.
  intros He Ha. rewrite matches_generic by done.
  rewrite orb_true_iff, negb_true_iff, truthy_num_false.
  unfold JS.includes. rewrite bool_decide_eq_true, !elem_of_cons, elem_of_nil.
  destruct (Alert.team_id alert) as [t|]; simpl.
  - split.
    + intros [?|[?|[?|[]]]]; [by left | right; exists t; auto..].
    + intros [?|(t' & [= <-] & [?|?])]; auto.
  - split; intros _; left; by left.
Qed.

(** Where the event has both details and the team filter is not 0, the
    code decides as the specification says. *)
Lemma generic_rule_with_both_details teamsMap (event : Event.t) (alert : Alert.t) d1 d2 :
  Event.sport_id event ≠ 20 →
  Alert.sport_id alert = Event.sport_id event →
  Event.event_detail_1 event = Some d1 →
  Event.event_detail_2 event = Some d2 →
  Alert.team_id alert ≠ Some 0 →
  matches teamsMap event alert = true ↔ generic_rule_as_stated teamsMap event alert.
Proof.
  intros He Ha H1 H2 H0. rewrite generic_pair_rule by done.
  unfold generic_rule_as_stated. rewrite H1, H2. simpl. split.
  - intros [[?|?]|(t & Ht & [Hl|Hl])]; [by left | done | right..].
    + exists t, (toLowerCase d1). repeat split; try done. exists d1. auto.
    + exists t, (toLowerCase d2). repeat split; try done. exists d2. auto.
  - intros [?|(t & name & Ht & Hl & d & [[= <-]|[= <-]] & ->)]; [by left; left | right..].
    + exists t. auto.
    + exists t. auto.
Qed.

(** C3. An alert on another sport than the event's never matches it,
    whatever the other fields of the two are: the pair does not match, the
    loop body leaves the mapping as it is, every event in a user's set is
    there through an alert of that user on the event's own sport, and where
    no alert shares a sport with an event the mapping stays empty. *)
Theorem differing_sport_never_matches teamsMap (events : list EventObj)
    (alerts : list Alert.t) :
  (∀ event alert m,
     Alert.sport_id alert ≠ Event.sport_id (val event) →
     matches teamsMap (val event) alert = false
     ∧ match_alert teamsMap event m alert = m)
  ∧ (∀ u a, holds (matcher teamsMap events alerts) u a →
       ∃ o alert, o ∈ events ∧ addr o = a ∧ alert ∈ alerts
                  ∧ Alert.user_id alert = u
                  ∧ Alert.sport_id alert = Event.sport_id (val o))
  ∧ ((∀ o alert, o ∈ events → alert ∈ alerts →
        Alert.sport_id alert ≠ Event.sport_id (val o)) →
     matcher teamsMap events alerts = []).
Proof.
  split; [|split].
  - intros event alert m Hs. by apply other_sport_no_match.
  - intros u a Hh. apply matcher_holds in Hh as (o & Ho & Ha & alert & Hin & Hu & Hm).
    exists o, alert. repeat split; try done.
    unfold matches in Hm.
    by destruct (Z.eqb_spec (Alert.sport_id alert) (Event.sport_id (val o))).
  - intros Hdiff. unfold matcher.
    induction events as [|o events' IH]; simpl; [done|].
    assert (match_event teamsMap alerts [] o = []) as ->.
    { unfold match_event.
      assert (∀ alert, alert ∈ alerts →
                Alert.sport_id alert ≠ Event.sport_id (val o)) as Ho.
      { intros alert Hin. apply Hdiff; [apply list_elem_of_here | done]. }
      clear Hdiff IH. induction alerts as [|al alerts' IHa]; simpl; [done|].
      destruct (other_sport_no_match teamsMap o al []) as [_ ->].
      - apply Ho, list_elem_of_here.
      - apply IHa. intros alert Hin. by apply Ho, list_elem_of_further. }
    apply IH. intros o' alert Ho' Hin. apply Hdiff; [|done].
    by apply list_elem_of_further.
Qed.

(** C4. In the mapping the matcher returns, every user occurs once and has
    a non-empty set; the set holds no event twice, and neither does the
    sorted digest made from it; every event in it is an event of the run
    that an alert of the user matches; and an event that two or more alerts
    of the user match is in the set, and in the digest, exactly once. *)
Theorem user_sets_have_no_duplicates teamsMap (events : list EventObj)
    (alerts : list Alert.t) (u : string) (s : EventSet) :
  NoDup (addr <$> events) →
  (u, s) ∈ matcher teamsMap events alerts →
  Map_get (matcher teamsMap events alerts) u = Some s
  ∧ NoDup (matcher teamsMap events alerts).*1
  ∧ s ≠ []
  ∧ NoDup s ∧ NoDup (addr <$> s)
  ∧ NoDup (digestOf s) ∧ digestOf s ≡ₚ s
  ∧ (∀ o, o ∈ s → o ∈ events ∧ qualifies teamsMap alerts u (val o))
  ∧ (∀ o a1 a2, o ∈ events → a1 ∈ alerts → a2 ∈ alerts →
       Alert.user_id a1 = u → Alert.user_id a2 = u →
       matches teamsMap (val o) a1 = true → matches teamsMap (val o) a2 = true →
       o ∈ s
       ∧ length (filter (λ x, addr x = addr o) s) = 1%nat
       ∧ length (filter (λ x, addr x = addr o) (digestOf s)) = 1%nat).
Proof.
  intros Hinj Hentry.
  destruct (matcher_well_formed teamsMap events alerts) as [Hkeys Hsets].
  pose proof (Map_get_NoDup _ _ _ Hkeys Hentry) as Hget.
  rewrite Forall_forall in Hsets. destruct (Hsets _ Hentry) as [Hne Hnd].
  simpl in Hne, Hnd.
  assert (NoDup s) as Hnds by (by apply NoDup_fmap_1 in Hnd).
  assert (digestOf s ≡ₚ s) as Hperm by apply sort_perm.
  assert (NoDup (digestOf s)) as Hndd by (by rewrite Hperm).
  do 7 (split; [done|]). split.
  - intros o Hos.
    destruct (matcher_entry teamsMap events alerts u s o Hentry Hos)
      as (_ & Hoe & Hq).
    split; [done | by apply Hq].
  - intros o a1 a2 Hoe Hin1 Hin2 Hu1 Hu2 Hm1 Hm2.
    assert (o ∈ s) as Hos.
    { assert (holds (matcher teamsMap events alerts) u (addr o))
        as (s' & Hs' & Ha).
      { apply matcher_holds. exists o. repeat split; try done. by exists a1. }
      rewrite Hget in Hs'. injection Hs' as <-.
      apply list_elem_of_fmap in Ha as (x & Hx & Hxs).
      pose proof (matcher_entry teamsMap events alerts _ s x Hentry Hxs)
        as (_ & Hxe & _).
      by rewrite (NoDup_fmap_eq addr events o x Hinj Hoe Hxe Hx). }
    split; [done|]. split.
    + by apply NoDup_count_one.
    + rewrite Hperm. by apply NoDup_count_one.
Qed.

End MatcherClaims.

(** ** The renderer: the broadcasters section *)

Section SortFacts.
Context {A : Type} (cmp : A → A → Z).
Hypothesis cmp_total : ∀ a b, cmp a b ≤ 0 ∨ cmp b a ≤ 0.

Local Abbreviation le := (λ a b : A, cmp a b ≤ 0).

Lemma sort_insert_HdRel (y x : A) (l : list A) :
  cmp y x ≤ 0 → HdRel le y l → HdRel le y (JS.sort_insert cmp x l).
Proof.
  intros Hyx Hhd. destruct l as [|z l]; simpl; [by constructor|].
  case_match; constructor; [done|]. by inversion Hhd.
Qed.

Lemma sort_insert_Sorted (x : A) (l : list A) :
  Sorted le l → Sorted le (JS.sort_insert cmp x l).
Proof.
  induction 1 as [|y l Hs IH Hhd]; simpl.
  - by repeat constructor.
  - destruct (Z.leb_spec (cmp x y) 0) as [Hxy|Hxy].
    + constructor; [by constructor|]. by constructor.
    + constructor; [done|]. apply sort_insert_HdRel; [|done].
      destruct (cmp_total x y); lia.
Qed.

Lemma sort_Sorted (l : list A) : Sorted le (JS.sort cmp l).
Proof.
  induction l as [|x l IH]; simpl; [constructor|].
  by apply sort_insert_Sorted.
Qed.

Hypothesis cmp_trans : ∀ a b c, cmp a b ≤ 0 → cmp b c ≤ 0 → cmp a c ≤ 0.

Lemma sort_StronglySorted (l : list A) : StronglySorted le (JS.sort cmp l).
Proof.
  apply Sorted_StronglySorted; [|apply sort_Sorted].
  intros a b c. apply cmp_trans.
Qed.

End SortFacts.

Section RendererClaims.
Context `{Host}.

Lemma broadcastersOfType_perm (ty : string) (event : Event.t) :
  broadcastersOfType ty event
  ≡ₚ filter (λ b, Broadcaster.type b = Some ty) (default [] (Event.broadcasters event)).
Proof.
  unfold broadcastersOfType. destruct (Event.broadcasters event) as [bs|]; simpl.
  - apply sort_perm.
  - done.
Qed.

Lemma broadcastersOfType_elem (ty : string) (event : Event.t) (b : Broadcaster.t) :
  b ∈ broadcastersOfType ty event
  ↔ Broadcaster.type b = Some ty ∧ b ∈ default [] (Event.broadcasters event).
Proof. by rewrite broadcastersOfType_perm, list_elem_of_filter. Qed.

Lemma broadcastersSection_groups (event : Event.t) :
  broadcastersSection event
  = group_lines "TV" "tv" (broadcastersOfType "tv" event)
    ++ group_lines "STREAMING" "streaming" (broadcastersOfType "streaming" event)
    ++ match broadcastersOfType "tv" event, broadcastersOfType "streaming" event with
       | [], [] => [NoBroadcaster]
       | _, _ => []
       end.
Proof.
  unfold broadcastersSection, renderBroadcasterRow.
  by destruct (broadcastersOfType "tv" event),
    (broadcastersOfType "streaming" event).
Qed.

Lemma group_lines_row label ty l b ty' :
  BroadcasterRow b ty' ∈ group_lines label ty l ↔ ty' = ty ∧ b ∈ l.
Proof.
  unfold group_lines. destruct l as [|x l].
  - rewrite !elem_of_nil. split; [done | by intros [_ ?]].
  - rewrite elem_of_cons, list_elem_of_fmap. split.
    + intros [[=]|(y & [= -> ->] & Hy)]. done.
    + intros [-> Hb]. right. by exists b.
Qed.

Lemma group_lines_header label ty l label' :
  GroupHeader label' ∈ group_lines label ty l ↔ label' = label ∧ l ≠ [].
Proof.
  unfold group_lines. destruct l as [|x l].
  - rewrite elem_of_nil. split; [done | by intros [_ ?]].
  - rewrite elem_of_cons, list_elem_of_fmap. split.
    + intros [[= ->]|(y & [=] & _)]. done.
    + intros [-> _]. by left.
Qed.

Lemma group_lines_placeholder label ty l : NoBroadcaster ∉ group_lines label ty l.
Proof.
  unfold group_lines. destruct l as [|x l]; [apply not_elem_of_nil|].
  rewrite elem_of_cons, list_elem_of_fmap. intros [[=]|(y & [=] & _)].
Qed.

(** C8, as the code has it. In the block [generateEventHTML] returns for an
    event, the broadcasters section shows a group only when it has a
    broadcaster: the header "TV" followed by the event's broadcasters of
    type tv when there is one, then the header "STREAMING" followed by
    those of type streaming when there is one, each group in ascending
    order of the broadcasters' names; a group without broadcasters prints
    nothing, not even its header, so the section has two groups, one, or
    none. A broadcaster of any other type has no row. When both groups
    are empty the section is the one line "no broadcaster available";
    otherwise that line is absent. *)
Theorem broadcasters_section_groups (event : Event.t) (sportsMap : gmap Z Sport.t) :
  (∀ a b : string, localeCompare a b ≤ 0 ∨ localeCompare b a ≤ 0) →
  (∀ a b c : string,
     localeCompare a b ≤ 0 → localeCompare b c ≤ 0 → localeCompare a c ≤ 0) →
  let section := block_broadcasters (generateEventHTML event sportsMap) in
  let all := default [] (Event.broadcasters event) in
  let ascending :=
    StronglySorted (λ a b, localeCompare (Broadcaster.name a) (Broadcaster.name b) ≤ 0) in
  ∃ tv streaming : list Broadcaster.t,
    tv ≡ₚ filter (λ b, Broadcaster.type b = Some "tv") all
    ∧ streaming ≡ₚ filter (λ b, Broadcaster.type b = Some "streaming") all
    ∧ ascending tv ∧ ascending streaming
    ∧ section
      = group_lines "TV" "tv" tv ++ group_lines "STREAMING" "streaming" streaming
        ++ match tv, streaming with [], [] => [NoBroadcaster] | _, _ => [] end
    ∧ headers section
      = (if decide (tv = []) then [] else ["TV"])
        ++ (if decide (streaming = []) then [] else ["STREAMING"])
    ∧ (∀ b ty, BroadcasterRow b ty ∈ section
               ↔ b ∈ all ∧ Broadcaster.type b = Some ty
                 ∧ (ty = "tv" ∨ ty = "streaming"))
    ∧ (∀ label, GroupHeader label ∈ section
                ↔ (label = "TV" ∧ tv ≠ []) ∨ (label = "STREAMING" ∧ streaming ≠ []))
    ∧ (tv = [] ∧ streaming = [] → section = [NoBroadcaster])
    ∧ (NoBroadcaster ∈ section → tv = [] ∧ streaming = []).
Proof.
  intros Htotal Htrans section all ascending.
  set (tv := broadcastersOfType "tv" event).
  set (streaming := broadcastersOfType "streaming" event).
  exists tv, streaming.
  assert (∀ ty, ascending (broadcastersOfType ty event)) as Hasc.
  { intros ty. unfold ascending, broadcastersOfType.
    destruct (Event.broadcasters event) as [bs|]; [|constructor].
    apply (sort_StronglySorted byName); unfold byName; [auto | eauto]. }
  assert (section = broadcastersSection event) as -> by done.
  split; [apply broadcastersOfType_perm|].
  split; [apply broadcastersOfType_perm|].
  split; [apply Hasc|]. split; [apply Hasc|].
  split; [apply broadcastersSection_groups|].
  rewrite broadcastersSection_groups. fold tv streaming.
  split.
  { unfold headers. rewrite !omap_app.
    assert (∀ label ty l,
              omap (λ line, match line with
                            | GroupHeader label' => Some label'
                            | _ => None
                            end) (group_lines label ty l)
              = if decide (l = []) then [] else [label]) as Hgroup.
    { intros label ty l. destruct l as [|x l]; [done|]. simpl.
      f_equal. induction l as [|y l IH]; [done|]. apply IH. }
    rewrite !Hgroup.
    destruct tv, streaming; simpl; by rewrite ?app_nil_r. }
  assert (∀ b, b ∈ tv ↔ Broadcaster.type b = Some "tv" ∧ b ∈ all) as Etv
    by (intros b; apply broadcastersOfType_elem).
  assert (∀ b, b ∈ streaming ↔ Broadcaster.type b = Some "streaming" ∧ b ∈ all)
    as Est by (intros b; apply broadcastersOfType_elem).
  clearbody tv streaming.
  assert (∀ x : BroadcasterLine, x ≠ NoBroadcaster →
            x ∉ match tv, streaming with [], [] => [NoBroadcaster] | _, _ => [] end)
    as Hlast.
  { intros x Hx Hin. destruct tv, streaming; try by apply elem_of_nil in Hin.
    by apply list_elem_of_singleton in Hin. }
  split; [|split; [|split]].
  - intros b ty. rewrite !elem_of_app, !group_lines_row, Etv, Est. split.
    + intros [(-> & ? & ?)|[(-> & ? & ?)|Hin]]; [by auto | by auto |].
      by apply Hlast in Hin.
    + intros (Hb & Hty & [-> | ->]); [left | right; left]; done.
  - intros label. rewrite !elem_of_app, !group_lines_header. split.
    + intros [?|[?|Hin]]; [by left | by right |]. by apply Hlast in Hin.
    + intros [?|?]; [by left | right; by left].
  - intros [-> ->]. done.
  - rewrite !elem_of_app. intros [Hin|[Hin|Hin]].
    + by apply group_lines_placeholder in Hin.
    + by apply group_lines_placeholder in Hin.
    + destruct tv, streaming; try by apply elem_of_nil in Hin. done.
Qed.

End RendererClaims.

(** ** The concrete host is a lawful one *)

Lemma codeCompare_le (a b : string) : codeCompare a b ≤ 0 ↔ String.compare a b ≠ Gt.
Proof. unfold codeCompare. destruct (String.compare a b); split; (lia || done). Qed.

Lemma codeCompare_total (a b : string) : codeCompare a b ≤ 0 ∨ codeCompare b a ≤ 0.
Proof.
  rewrite !codeCompare_le, (String.compare_antisym a b).
  destruct (String.compare b a); simpl; auto.
Qed.

Lemma string_compare_trans (a b c : string) :
  String.compare a b ≠ Gt → String.compare b c ≠ Gt → String.compare a c ≠ Gt.
Proof.
  revert b c. induction a as [|x a IH]; intros [|y b] [|z c]; simpl; try done.
  unfold Ascii.compare.
  destruct (N.compare_spec (Ascii.N_of_ascii x) (Ascii.N_of_ascii y)) as [Exy|Lxy|Gxy],
    (N.compare_spec (Ascii.N_of_ascii y) (Ascii.N_of_ascii z)) as [Eyz|Lyz|Gyz],
    (N.compare_spec (Ascii.N_of_ascii x) (Ascii.N_of_ascii z)) as [Exz|Lxz|Gxz];
    try done; try lia.
  apply IH.
Qed.

Lemma codeCompare_trans (a b c : string) :
  codeCompare a b ≤ 0 → codeCompare b c ≤ 0 → codeCompare a c ≤ 0.
Proof. rewrite !codeCompare_le. apply string_compare_trans. Qed.

(** ** The dispatcher *)

Section GroupFacts.
Context {A : Type}.
Implicit Types (l : list A) (B : nat).

Lemma groups_fuel_enough B (f f' : nat) l :
  (0 < B)%nat → (length l ≤ f)%nat → (length l ≤ f')%nat →
  groups_fuel f B l = groups_fuel f' B l.
Proof.
  intros HB. revert f' l. induction f as [|f IH]; intros f' l Hf Hf'.
  - destruct l; [|simpl in Hf; lia]. by destruct f'.
  - destruct l as [|x l]; [by destruct f'|].
    destruct f' as [|f']; [simpl in Hf'; lia|].
    simpl groups_fuel. f_equal. apply IH.
    + rewrite length_drop. simpl in *. lia.
    + rewrite length_drop. simpl in *. lia.
Qed.

Lemma groups_nil B : groups B ([] : list A) = [].
Proof. done. Qed.

Lemma groups_step B l :
  (0 < B)%nat → l ≠ [] → groups B l = take B l :: groups B (drop B l).
Proof.
  intros HB Hl. unfold groups. destruct l as [|x l]; [done|].
  simpl length. simpl groups_fuel. f_equal.
  apply groups_fuel_enough; [done | | done].
  rewrite length_drop. simpl. lia.
Qed.

(** The groups are the list cut at every multiple of the batch size. *)
Lemma groups_lookup B l (k : nat) (g : list A) :
  (0 < B)%nat →
  groups B l !! k = Some g ↔ (k * B < length l)%nat ∧ g = take B (drop (k * B) l).
Proof.
  intros HB. revert l. induction k as [|k IH]; intros l.
  - destruct l as [|x l].
    + rewrite groups_nil. simpl. split; [done | lia].
    + rewrite groups_step by done. simpl. split.
      * intros [= <-]. split; [lia | done].
      * by intros [_ ->].
  - destruct l as [|x l].
    + rewrite groups_nil. simpl. split; [done | lia].
    + rewrite groups_step by done. simpl lookup. rewrite IH.
      rewrite length_drop, drop_drop.
      replace (B + k * B)%nat with (S k * B)%nat by lia.
      split; intros [Hlt ->]; (split; [lia | done]).
Qed.

Lemma groups_concat B l : (0 < B)%nat → concat (groups B l) = l.
Proof.
  intros HB. remember (length l) as n eqn:Hn. revert l Hn.
  induction n as [n IH] using lt_wf_ind. intros l ->.
  destruct l as [|x l]; [done|].
  rewrite groups_step by done. simpl concat.
  rewrite (IH (length (drop B (x :: l)))); [apply take_drop | | done].
  rewrite length_drop. simpl. lia.
Qed.

Lemma groups_length B l :
  (0 < B)%nat → length (groups B l) = ((length l + B - 1) / B)%nat.
Proof.
  intros HB. remember (length l) as n eqn:Hn. revert l Hn.
  induction n as [n IH] using lt_wf_ind. intros l Hn.
  destruct (decide (l = [])) as [->|Hl].
  - rewrite groups_nil. subst n. symmetry. apply Nat.div_small.
    change (length ([] : list A)) with 0%nat. lia.
  - assert (0 < n)%nat as Hpos by (subst n; destruct l; [done | simpl; lia]).
    rewrite groups_step by done.
    change (length (take B l :: groups B (drop B l)))
      with (S (length (groups B (drop B l)))).
    rewrite (IH (n - B)%nat); [| lia | rewrite length_drop; lia].
    destruct (Nat.le_gt_cases B n) as [Hge|Hlt].
    + replace (n + B - 1)%nat with ((n - B + B - 1) + 1 * B)%nat by lia.
      rewrite Nat.div_add by lia. lia.
    + replace (n - B)%nat with 0%nat by lia.
      rewrite Nat.add_0_l, (Nat.div_small (B - 1) B) by lia.
      apply (Nat.div_unique _ _ 1 (n - 1)); lia.
Qed.

(** Every group has the batch size, the last one apart: it has what is
    left, [n mod B] when that is not zero. *)
Lemma groups_sizes B l (k : nat) (g : list A) :
  (0 < B)%nat → groups B l !! k = Some g →
  length g = B
  ∨ (S k = length (groups B l) ∧ length g = (length l mod B)%nat
     ∧ (length l mod B ≠ 0)%nat).
Proof.
  intros HB Hg. pose proof Hg as Hg'.
  apply groups_lookup in Hg' as [Hlt ->]; [|done].
  rewrite length_take, length_drop.
  destruct (Nat.le_gt_cases B (length l - k * B)) as [Hge|Hshort]; [left; lia|].
  right. set (n := length l) in *. set (r := (n - k * B)%nat) in *.
  assert (n = k * B + r)%nat as Hn by lia.
  assert (n mod B = r)%nat as Hmod.
  { symmetry. apply (Nat.mod_unique n B k r); lia. }
  rewrite groups_length by done. fold n.
  split; [|split; lia].
  apply (Nat.div_unique _ _ _ (r - 1)); lia.
Qed.

End GroupFacts.

Section DispatcherClaims.
Context `{Host}.
Variables (sportsMap : gmap Z Sport.t) (userIdToEmail : gmap string (option string))
  (send_ok : nat → bool).

Implicit Types (p : Progress) (usersList : list (string * EventSet)).

Lemma pacing_app (a b : list Effect) : pacing (a ++ b) = pacing a ++ pacing b.
Proof.
  induction a as [|e a IH]; simpl; [done|].
  destruct e; simpl; by rewrite ?IH.
Qed.

Lemma group_pacing_cons entry usersList :
  group_pacing userIdToEmail (entry :: usersList)
  = (if eligible userIdToEmail entry
     then [PaceSend (default "" (mjoin (userIdToEmail !! entry.1))); PaceShort]
     else [])
    ++ group_pacing userIdToEmail usersList.
Proof. done. Qed.

Lemma group_pacing_no_long usersList :
  filter (λ x, x ≠ PaceLong) (group_pacing userIdToEmail usersList)
  = group_pacing userIdToEmail usersList.
Proof.
  induction usersList as [|entry l IH]; [done|].
  rewrite group_pacing_cons, filter_app, IH. f_equal.
  by destruct (eligible userIdToEmail entry).
Qed.

Lemma group_pacing_app l1 l2 :
  group_pacing userIdToEmail (l1 ++ l2)
  = group_pacing userIdToEmail l1 ++ group_pacing userIdToEmail l2.
Proof. unfold group_pacing. apply bind_app. Qed.

Lemma deliver_spec p entry :
  pacing (trace (deliver sportsMap userIdToEmail send_ok p entry))
  = pacing (trace p) ++ group_pacing userIdToEmail [entry]
  ∧ (sent (deliver sportsMap userIdToEmail send_ok p entry)
     + failed (deliver sportsMap userIdToEmail send_ok p entry)
     = sent p + failed p + eligible_count userIdToEmail [entry])%nat.
Proof.
  unfold eligible_count. rewrite group_pacing_cons, filter_cons.
  unfold deliver, eligible.
  destruct (JS.truthy_str (mjoin (userIdToEmail !! entry.1))); simpl;
    [|rewrite app_nil_r; split; [done | lia]].
  destruct (length entry.2 =? 0)%nat; simpl;
    [rewrite app_nil_r; split; [done | lia]|].
  destruct (send_ok (sent p + failed p)); simpl;
    rewrite !pacing_app; simpl; rewrite <- app_assoc; simpl; split; (done || lia).
Qed.

Lemma batch_spec p batch :
  pacing (trace (foldl (deliver sportsMap userIdToEmail send_ok) p batch))
  = pacing (trace p) ++ group_pacing userIdToEmail batch
  ∧ (sent (foldl (deliver sportsMap userIdToEmail send_ok) p batch)
     + failed (foldl (deliver sportsMap userIdToEmail send_ok) p batch)
     = sent p + failed p + eligible_count userIdToEmail batch)%nat.
Proof.
  revert p. induction batch as [|entry batch IH]; intros p.
  - simpl. rewrite app_nil_r. split; [done | unfold eligible_count; simpl; lia].
  - simpl foldl. destruct (IH (deliver sportsMap userIdToEmail send_ok p entry))
      as [-> ->].
    destruct (deliver_spec p entry) as [-> ->].
    change (entry :: batch) with ([entry] ++ batch).
    rewrite group_pacing_app, app_assoc. split; [done|].
    unfold eligible_count. rewrite filter_app, length_app. lia.
Qed.

Lemma between_groups_cons (g : list Pace) (gs : list (list Pace)) :
  between_groups (g :: gs)
  = g ++ match gs with [] => [] | _ => PaceLong :: between_groups gs end.
Proof. destruct gs; simpl; [by rewrite app_nil_r | done]. Qed.

(** The outer loop from index [i]: with fuel for the batches that are
    left it ends, having paced the rest of the list group by group. *)
Lemma dispatch_from_spec (B fuel : nat) usersList (i : nat) p :
  (0 < B)%nat → (length usersList - i < fuel)%nat →
  ∃ p', dispatch_from fuel B sportsMap userIdToEmail send_ok usersList i p = Some p'
    ∧ pacing (trace p')
      = pacing (trace p)
        ++ between_groups (group_pacing userIdToEmail <$> groups B (drop i usersList))
    ∧ (sent p' + failed p'
       = sent p + failed p + eligible_count userIdToEmail (drop i usersList))%nat.
Proof.
  intros HB. revert i p. induction fuel as [|fuel IH]; intros i p Hfuel; [lia|].
  simpl dispatch_from. destruct (Nat.ltb_spec i (length usersList)) as [Hi|Hi].
  - assert (drop i usersList ≠ []) as Hne.
    { intros Hnil. apply (f_equal length) in Hnil.
      rewrite length_drop in Hnil. simpl in Hnil. lia. }
    rewrite (groups_step B (drop i usersList)) by done.
    rewrite drop_drop, fmap_cons, between_groups_cons.
    unfold JS.slice. replace (i + B - i)%nat with B by lia.
    set (p1 := foldl _ p (take B (drop i usersList))).
    destruct (batch_spec p (take B (drop i usersList))) as [Hp1 Hc1]. fold p1 in Hp1, Hc1.
    assert (eligible_count userIdToEmail (drop i usersList)
            = eligible_count userIdToEmail (take B (drop i usersList))
              + eligible_count userIdToEmail (drop (i + B) usersList))%nat as Hcount.
    { rewrite <- (take_drop B (drop i usersList)) at 1.
      unfold eligible_count. by rewrite filter_app, length_app, drop_drop. }
    destruct (Nat.ltb_spec (i + B) (length usersList)) as [Hmore|Hlast].
    + destruct (IH (i + B)%nat (emit p1 [Sleep DELAY_BETWEEN_BATCHES]))
        as (p' & -> & Hp' & Hc'); [lia|].
      exists p'. split; [done|]. split.
      * rewrite Hp'. simpl trace. rewrite pacing_app, Hp1. simpl pacing.
        assert (drop (i + B) usersList ≠ []) as Hne'.
        { intros Hnil. apply (f_equal length) in Hnil.
          rewrite length_drop in Hnil. simpl in Hnil. lia. }
        rewrite (groups_step B (drop (i + B) usersList)) by done.
        rewrite fmap_cons. by rewrite <- !app_assoc.
      * rewrite Hc', Hcount. simpl. lia.
    + destruct (IH (i + B)%nat p1) as (p' & -> & Hp' & Hc'); [lia|].
      exists p'. split; [done|].
      rewrite (drop_ge usersList (i + B)) in * by lia.
      rewrite groups_nil in *. simpl in Hp'. rewrite app_nil_r in *.
      split; [by rewrite Hp', Hp1|].
      rewrite Hc', Hcount, Hc1. unfold eligible_count. simpl. lia.
  - exists p. split; [done|]. rewrite drop_ge by lia.
    rewrite groups_nil. simpl. rewrite app_nil_r.
    split; [done | unfold eligible_count; simpl; lia].
Qed.

(** The dispatcher only adds to the trace. *)
Lemma deliver_extends p entry :
  ∃ more, trace (deliver sportsMap userIdToEmail send_ok p entry) = trace p ++ more.
Proof.
  unfold deliver. case_match; [exists []; by rewrite app_nil_r|].
  case_match; simpl; rewrite <- app_assoc; eauto.
Qed.

Lemma batch_extends p batch :
  ∃ more,
    trace (foldl (deliver sportsMap userIdToEmail send_ok) p batch) = trace p ++ more.
Proof.
  revert p. induction batch as [|entry batch IH]; intros p; simpl.
  - exists []. by rewrite app_nil_r.
  - destruct (IH (deliver sportsMap userIdToEmail send_ok p entry)) as [more ->].
    destruct (deliver_extends p entry) as [more' ->].
    rewrite <- app_assoc. eauto.
Qed.

Lemma dispatch_from_extends (B fuel : nat) usersList (i : nat) p p' :
  dispatch_from fuel B sportsMap userIdToEmail send_ok usersList i p = Some p' →
  ∃ more, trace p' = trace p ++ more.
Proof.
  revert i p. induction fuel as [|fuel IH]; intros i p; simpl; [done|].
  case_match; [|intros [= <-]; exists []; by rewrite app_nil_r].
  intros Hrun. apply IH in Hrun as [more ->].
  destruct (batch_extends p (JS.slice i (i + B) usersList)) as [more' Hb].
  case_match; simpl; rewrite Hb, <- ?app_assoc; eauto.
Qed.

Lemma between_groups_without_long (gs : list (list (string * EventSet))) :
  filter (λ x, x ≠ PaceLong) (between_groups (group_pacing userIdToEmail <$> gs))
  = group_pacing userIdToEmail (concat gs).
Proof.
  induction gs as [|g gs IH]; [done|].
  rewrite fmap_cons, between_groups_cons, filter_app, group_pacing_no_long.
  simpl concat. rewrite group_pacing_app. f_equal.
  destruct gs as [|g' gs]; [done|].
  rewrite (fmap_cons _ g' gs), filter_cons, decide_False by (by intros ?).
  rewrite <- fmap_cons. apply IH.
Qed.

Lemma between_groups_long_count (gs : list (list (string * EventSet))) :
  length (filter (λ x, x = PaceLong) (between_groups (group_pacing userIdToEmail <$> gs)))
  = pred (length gs).
Proof.
  assert (∀ l, filter (λ x, x = PaceLong) (group_pacing userIdToEmail l) = []) as Hnone.
  { intros l. induction l as [|entry l IHl]; [done|].
    rewrite group_pacing_cons, filter_app, IHl.
    by destruct (eligible userIdToEmail entry). }
  induction gs as [|g gs IH]; [done|].
  rewrite fmap_cons, between_groups_cons, filter_app, Hnone.
  destruct gs as [|g' gs]; [done|].
  rewrite (fmap_cons _ g' gs), filter_cons, decide_True by done.
  rewrite <- fmap_cons. cbn [app length]. by rewrite IH.
Qed.

End DispatcherClaims.

(** C6. With a batch size of at least one the dispatcher's loop ends, and
    it paces the users of the list, in the order of the list, group by
    group: the groups are the list cut at every multiple of the batch size
    (each of the batch size, the last one of what is left: [n mod B] when
    that is not zero); within a group every user sent to is followed by the
    short delay; the longer delay stands between two consecutive groups and
    nowhere else, so there is one less than there are groups and none after
    the last group; every eligible user is attempted once. *)
Theorem dispatcher_batches `{Host} (B : nat) (sportsMap : gmap Z Sport.t)
    (userIdToEmail : gmap string (option string)) (send_ok : nat → bool)
    (usersList : list (string * EventSet)) (p : Progress) :
  (0 < B)%nat →
  ∃ p', dispatch B sportsMap userIdToEmail send_ok usersList p = Some p'
    ∧ pacing (trace p') = pacing (trace p) ++ spec_pacing B userIdToEmail usersList
    ∧ concat (groups B usersList) = usersList
    ∧ length (groups B usersList) = ((length usersList + B - 1) / B)%nat
    ∧ (∀ k g, groups B usersList !! k = Some g →
         g = take B (drop (k * B) usersList)
         ∧ (length g = B
            ∨ (S k = length (groups B usersList)
               ∧ length g = (length usersList mod B)%nat
               ∧ (length usersList mod B ≠ 0)%nat)))
    ∧ filter (λ x, x ≠ PaceLong) (spec_pacing B userIdToEmail usersList)
      = group_pacing userIdToEmail usersList
    ∧ length (filter (λ x, x = PaceLong) (spec_pacing B userIdToEmail usersList))
      = pred (length (groups B usersList))
    ∧ (sent p' + failed p'
       = sent p + failed p + eligible_count userIdToEmail usersList)%nat.
Proof.
  intros HB. unfold dispatch.
  destruct (dispatch_from_spec sportsMap userIdToEmail send_ok B
              (S (length usersList)) usersList 0 p HB) as (p' & Hp' & Htrace & Hcount);
    [lia|].
  rewrite drop_0 in Htrace, Hcount.
  exists p'. split; [done|]. split; [done|].
  split; [by apply groups_concat|]. split; [by apply groups_length|].
  split; [|split; [|split; [|done]]].
  - intros k g Hg. split; [by apply groups_lookup in Hg as [_ ?] | by apply groups_sizes].
  - unfold spec_pacing. by rewrite between_groups_without_long, groups_concat.
  - unfold spec_pacing. apply between_groups_long_count.
Qed.

(** Twelve users in batches of five: groups of 5, 5 and 2, the longer delay
    after the first and after the second group, none after the third. *)
Example twelve_users_in_batches_of_five :
  (pacing ∘ trace
   <$> dispatch (H := asciiHost) BATCH_SIZE ∅ twelve_addresses (λ _, true) twelve_users
         {| trace := []; sent := 0; failed := 0 |})
  = Some ([PaceSend "u01@b.com"; PaceShort; PaceSend "u02@b.com"; PaceShort;
           PaceSend "u03@b.com"; PaceShort; PaceSend "u04@b.com"; PaceShort;
           PaceSend "u05@b.com"; PaceShort; PaceLong;
           PaceSend "u06@b.com"; PaceShort; PaceSend "u07@b.com"; PaceShort;
           PaceSend "u08@b.com"; PaceShort; PaceSend "u09@b.com"; PaceShort;
           PaceSend "u10@b.com"; PaceShort; PaceLong;
           PaceSend "u11@b.com"; PaceShort; PaceSend "u12@b.com"; PaceShort])
  ∧ length <$> groups BATCH_SIZE twelve_users = [5; 5; 2]%nat.
Proof. split; by vm_compute. Qed.

Lemma dispatcher_batches_witness :
  ∃ p', dispatch (H := asciiHost) BATCH_SIZE ∅ twelve_addresses (λ _, true) twelve_users
          {| trace := []; sent := 0; failed := 0 |} = Some p'
        ∧ (sent p' + failed p' = 12)%nat.
Proof.
  destruct (dispatcher_batches (H := asciiHost) BATCH_SIZE ∅ twelve_addresses
              (λ _, true) twelve_users {| trace := []; sent := 0; failed := 0 |})
    as (p' & Hp' & _ & _ & _ & _ & _ & _ & Hcount).
  - unfold BATCH_SIZE. lia.
  - exists p'. split; [done|]. rewrite Hcount. by vm_compute.
Defined.

(** ** The run *)

Section RunClaims.
Context `{Host}.

Implicit Types (w : World) (env : Env).

Lemma script_configured env w :
  configured env →
  script env w
  = match main w with
    | Some (tr, Resolved) => Some (tr, 0)
    | Some (tr, Rejected message) => Some (tr ++ [ConsoleError (Caught message)], 0)
    | None => None
    end.
Proof.
  intros [(H1 & H2 & H3) Hsetup]. unfold script, setup_error in *.
  rewrite H1, H2, H3. simpl.
  destruct (createClient _ _); [done|]. by rewrite Hsetup.
Qed.

(** The entries of the team table, row by row. *)
Lemma teamEntries_Some rows entries :
  teamEntries rows = Some entries →
  Forall2 (λ t e, ∃ name, Team.name t = Some name ∧ e = (Team.id t, toLowerCase name))
          rows entries.
Proof.
  revert entries. induction rows as [|t rows IH]; intros entries; simpl.
  - intros [= <-]. constructor.
  - destruct (Team.name t) as [name|] eqn:Hname; [|done].
    destruct (teamEntries rows) as [entries'|]; [|done].
    intros [= <-]. constructor; [by exists name | by apply IH].
Qed.

Lemma teamEntries_named rows :
  Forall (λ t, is_Some (Team.name t)) rows ↔ is_Some (teamEntries rows).
Proof.
  induction rows as [|t rows IH]; simpl.
  - split; [done | constructor].
  - rewrite Forall_cons, IH. destruct (Team.name t) as [name|].
    + destruct (teamEntries rows); split; first [done | by intros [_ []] | by intros []].
    + split; [by intros [[] _] | by intros []].
Qed.

Lemma teamsMapOf_named w : teams_named w ↔ is_Some (teamsMapOf w).
Proof.
  unfold teams_named, teamsMapOf. rewrite teamEntries_named, fmap_is_Some. done.
Qed.

(** The team table of a run: under the id of a row, the lower-cased name
    of the last row with that id. *)
Lemma teamsMapOf_lookup w teamsMap t v :
  teamsMapOf w = Some teamsMap →
  teamsMap !! t = Some v →
  ∃ team name, team ∈ Res.rows (teamsRes w) ∧ Team.id team = t
               ∧ Team.name team = Some name ∧ v = toLowerCase name.
Proof.
  unfold teamsMapOf. intros Hmap Hlook.
  destruct (teamEntries (Res.rows (teamsRes w))) as [entries|] eqn:Hentries; [|done].
  injection Hmap as <-.
  apply fromEntries_lookup_Some in Hlook.
  apply teamEntries_Some in Hentries.
  revert Hlook. induction Hentries as [|team e rows entries (name & Hn & ->) _ IH].
  - by intros ?%elem_of_nil.
  - rewrite elem_of_cons. intros [[= -> ->]|Hin].
    + exists team, name. split; [apply list_elem_of_here | done].
    + destruct (IH Hin) as (team' & name' & ? & ? & ? & ?).
      exists team', name'. split; [by apply list_elem_of_further | done].
Qed.

Lemma main_events_error w message :
  Res.error (eventsRes w (targetDate (nowParis w))) = Some message →
  main w = Some ([ConsoleLog LogStarting; (resolveTargetDate (nowParis w)).2],
                 Rejected ("Error fetching events: " +:+ message)).
Proof. intros Herr. unfold main. by rewrite Herr. Qed.

Lemma main_no_events w :
  Res.error (eventsRes w (targetDate (nowParis w))) = None →
  Res.rows (eventsRes w (targetDate (nowParis w))) = [] →
  main w = Some ([ConsoleLog LogStarting; (resolveTargetDate (nowParis w)).2;
                  ConsoleLog LogNoEvents], Resolved).
Proof. intros Herr Hrows. unfold main. by rewrite Herr, Hrows. Qed.

(** With at least one event the run stops at line 62 when a row of the
    teams query has no name: the exception rejects [main] after the line
    "found", before the matching. *)
Lemma main_null_team_name w :
  Res.error (eventsRes w (targetDate (nowParis w))) = None →
  Res.rows (eventsRes w (targetDate (nowParis w))) ≠ [] →
  teamsMapOf w = None →
  main w
  = Some ([ConsoleLog LogStarting; (resolveTargetDate (nowParis w)).2;
           ConsoleLog (LogFound (length (Res.rows (eventsRes w (targetDate (nowParis w)))))
                         (targetDate (nowParis w)))],
          Rejected nullNameError).
Proof.
  intros Herr Hrows Hteams. unfold main. rewrite Herr, Hteams.
  by destruct (Nat.eqb_spec (length (Res.rows (eventsRes w (targetDate (nowParis w))))) 0)
    as [Hlen|Hlen]; [apply length_zero_iff_nil in Hlen|].
Qed.

(** With at least one event and a team table built, the run goes through
    matching and dispatch to the summary, whatever the four other queries
    returned. *)
Lemma main_with_events w teamsMap :
  Res.error (eventsRes w (targetDate (nowParis w))) = None →
  Res.rows (eventsRes w (targetDate (nowParis w))) ≠ [] →
  teamsMapOf w = Some teamsMap →
  ∃ p,
    dispatch BATCH_SIZE (sportsMapOf w) (userIdToEmailOf w) (send_ok w)
      (matcher teamsMap (eventsOf w) (Res.rows (alertsRes w)))
      {| trace :=
           [ConsoleLog LogStarting; (resolveTargetDate (nowParis w)).2;
            ConsoleLog (LogFound (length (Res.rows (eventsRes w (targetDate (nowParis w)))))
                          (targetDate (nowParis w)));
            ConsoleLog (LogPreparing
                          (length (matcher teamsMap (eventsOf w)
                                     (Res.rows (alertsRes w)))))];
         sent := 0; failed := 0 |} = Some p
    ∧ main w = Some (trace p ++ [ConsoleLog (LogDone (sent p) (failed p))], Resolved).
Proof.
  intros Herr Hrows Hteams. unfold main. rewrite Herr, Hteams.
  destruct (Nat.eqb_spec (length (Res.rows (eventsRes w (targetDate (nowParis w))))) 0)
    as [Hlen|Hlen]; [by apply length_zero_iff_nil in Hlen|].
  simpl app.
  unfold dispatch.
  match goal with
  | |- context [dispatch_from ?fuel ?B ?sm ?em ?ok ?ul 0 ?p0] =>
      destruct (dispatch_from_spec sm em ok B fuel ul 0 p0) as (p & Hp & _)
  end.
  { unfold BATCH_SIZE. lia. }
  { lia. }
  exists p. by rewrite Hp.
Qed.

(** The run always ends: [main] settles for every input. *)
Lemma main_total w : is_Some (main w).
Proof.
  destruct (Res.error (eventsRes w (targetDate (nowParis w)))) as [message|] eqn:Herr.
  - by rewrite (main_events_error w message).
  - destruct (decide (Res.rows (eventsRes w (targetDate (nowParis w))) = []))
      as [Hrows|Hrows].
    + by rewrite main_no_events.
    + destruct (teamsMapOf w) as [teamsMap|] eqn:Hteams.
      * destruct (main_with_events w teamsMap Herr Hrows Hteams) as (p & _ & ->). done.
      * by rewrite main_null_team_name.
Qed.

(** C7, as the code has it. When the events query fails, the run stops
    before matching and sending: [main] rejects with the error, the
    handler at the bottom of the script logs it, no e-mail is sent, and the
    process ends normally, with exit status 0. *)
Theorem events_error_aborts_run env w (message : string) :
  configured env →
  Res.error (eventsRes w (targetDate (nowParis w))) = Some message →
  ∃ tr,
    script env w = Some (tr, 0)
    ∧ tr = [ConsoleLog LogStarting; (resolveTargetDate (nowParis w)).2;
            ConsoleError (Caught ("Error fetching events: " +:+ message))]
    ∧ main w = Some ([ConsoleLog LogStarting; (resolveTargetDate (nowParis w)).2],
                     Rejected ("Error fetching events: " +:+ message))
    ∧ no_send tr ∧ pacing tr = [] ∧ ¬ reached_matching tr ∧ ¬ has_summary tr.
Proof.
  intros Henv Herr. eexists. split; [|split; [done|]].
  - rewrite script_configured by done. by rewrite (main_events_error w message).
  - split; [by apply main_events_error|].
    assert (∀ e, e ∈ [ConsoleLog LogStarting; (resolveTargetDate (nowParis w)).2;
                      ConsoleError (Caught ("Error fetching events: " +:+ message))] →
                 e = ConsoleLog LogStarting
                 ∨ (∃ h d, e = ConsoleLog (LogBefore6 h d) ∨ e = ConsoleLog (LogAfter6 h d))
                 ∨ ∃ m, e = ConsoleError (Caught m)) as Hshape.
    { intros e. rewrite !elem_of_cons, elem_of_nil.
      intros [->|[->|[->|[]]]]; [by left | right; left | right; right; eauto].
      unfold resolveTargetDate. case_match; simpl; eauto. }
    split; [|split; [|split]].
    + intros to html Hin. apply Hshape in Hin as [?|[(h & d & [?|?])|[m ?]]]; done.
    + unfold resolveTargetDate. by case_match.
    + intros [n Hin]. apply Hshape in Hin as [?|[(h & d & [?|?])|[m ?]]]; done.
    + intros (s & f & Hin). apply Hshape in Hin as [?|[(h & d & [?|?])|[m ?]]]; done.
Qed.

(** C10. When the events query succeeds with no row, the run ends at once
    and well: [main] resolves after the line "no events", no matching is
    done, nothing is sent, no summary is printed, and the exit status is 0.
    The five other queries are treated otherwise: with at least one event
    the run reaches matching and prints the summary whatever they
    returned, an error or no row included, the rows of the teams query
    having their names. *)
Theorem no_events_ends_run_early w :
  Res.error (eventsRes w (targetDate (nowParis w))) = None →
  Res.rows (eventsRes w (targetDate (nowParis w))) = [] →
  let tr := [ConsoleLog LogStarting; (resolveTargetDate (nowParis w)).2;
             ConsoleLog LogNoEvents] in
  main w = Some (tr, Resolved)
  ∧ (∀ env, configured env → script env w = Some (tr, 0))
  ∧ no_send tr ∧ pacing tr = [] ∧ ¬ reached_matching tr ∧ ¬ has_summary tr
  ∧ (∀ w' : World,
       Res.error (eventsRes w' (targetDate (nowParis w'))) = None →
       Res.rows (eventsRes w' (targetDate (nowParis w'))) ≠ [] →
       teams_named w' →
       ∃ tr', main w' = Some (tr', Resolved)
              ∧ reached_matching tr' ∧ has_summary tr').
Proof.
  intros Herr Hrows tr.
  assert (∀ e, e ∈ tr →
               e = ConsoleLog LogStarting
               ∨ (∃ h d, e = ConsoleLog (LogBefore6 h d) ∨ e = ConsoleLog (LogAfter6 h d))
               ∨ e = ConsoleLog LogNoEvents) as Hshape.
  { intros e. subst tr. rewrite !elem_of_cons, elem_of_nil.
    intros [->|[->|[->|[]]]]; [by left | right; left | by right; right].
    unfold resolveTargetDate. case_match; simpl; eauto. }
  split; [by apply main_no_events|].
  split; [intros env Henv; rewrite script_configured by done;
          by rewrite main_no_events|].
  split; [|split; [|split; [|split]]].
  - intros to html Hin. apply Hshape in Hin as [?|[(h & d & [?|?])|?]]; done.
  - subst tr. unfold resolveTargetDate. by case_match.
  - intros [n Hin]. apply Hshape in Hin as [?|[(h & d & [?|?])|?]]; done.
  - intros (s & f & Hin). apply Hshape in Hin as [?|[(h & d & [?|?])|?]]; done.
  - intros w' Herr' Hrows' [teamsMap Hteams]%teamsMapOf_named.
    destruct (main_with_events w' teamsMap Herr' Hrows' Hteams) as (p & Hp & ->).
    eexists. split; [done|].
    apply dispatch_from_extends in Hp as [more ->]. simpl.
    split.
    + eexists. do 3 apply list_elem_of_further. apply list_elem_of_here.
    + exists (sent p), (failed p). rewrite !elem_of_cons, elem_of_app.
      do 4 right. right. apply list_elem_of_here.
Qed.

End RunClaims.

(** ** Concrete runs *)

Ltac in_list := repeat first [apply list_elem_of_here | apply list_elem_of_further].

Lemma tennis_match_rule_witness :
  holds (matcher (H := asciiHost) ∅ (allocate [atp_event; open_event])
           [atp_alert; wta_alert]) "U1" 0
  ∧ ¬ holds (matcher (H := asciiHost) ∅ (allocate [atp_event; open_event])
               [atp_alert; wta_alert]) "U1" 1.
Proof.
  pose proof (tennis_match_rule (H := asciiHost) ∅ (allocate [atp_event; open_event])
                [atp_alert; wta_alert]) as Hrule.
  assert (NoDup (addr <$> allocate [atp_event; open_event])) as Hinj
    by (apply (bool_decide_unpack _); by vm_compute).
  split.
  - apply (Hrule {| addr := 0; val := atp_event |}); [in_list | done | done |].
    exists atp_alert. repeat split; [in_list|]. right. left. done.
  - intros Hh.
    apply (Hrule {| addr := 1; val := open_event |}) in Hh; [| in_list | done | done].
    destruct Hh as (alert & Hin & _ & _ & Hr).
    apply elem_of_cons in Hin as [->|Hin];
      [|apply list_elem_of_singleton in Hin as ->];
      destruct Hr as [[?|?]|[[? _]|[? _]]]; done.
Defined.

(** The counterexample to C1 as stated: a league filter of 0 is a league_id
    value other than the two codes, and it matches a tennis event of any
    competition. *)
Lemma league_zero_matches_any_tennis_event :
  matches (H := asciiHost) ∅ open_event zero_league_alert = true
  ∧ matcher (H := asciiHost) ∅ (allocate [open_event]) [zero_league_alert]
    = [("U1", allocate [open_event])]
  ∧ ¬ tennis_rule_as_stated open_event zero_league_alert.
Proof.
  split; [by vm_compute|]. split; [by vm_compute|].
  intros [?|[[? _]|[? _]]]; done.
Qed.

(** C2 fails on the code: an alert whose team_id resolves to no team
    matches an event that lacks one of its two details, although the rule
    of the specification does not hold for the pair. *)
Example unknown_team_matches_event_without_detail :
  teamsMapOf (H := asciiHost) (scenario unknown_team_alert events_ok) = Some ∅
  ∧ matches (H := asciiHost) ∅ race_event unknown_team_alert = true
  ∧ matcher (H := asciiHost) ∅ (allocate [race_event]) [unknown_team_alert]
    = [("U1", allocate [race_event])]
  ∧ ¬ generic_rule_as_stated (H := asciiHost) ∅ race_event unknown_team_alert.
Proof.
  split; [by vm_compute|]. split; [by vm_compute|]. split; [by vm_compute|].
  intros [?|(t & name & _ & Ht & _)]; done.
Qed.

Lemma user_sets_have_no_duplicates_witness :
  length (filter (λ x, addr x = 0%nat)
            (digestOf (H := asciiHost) (allocate [atp_event]))) = 1%nat.
Proof.
  destruct (user_sets_have_no_duplicates (H := asciiHost) ∅ (allocate [atp_event])
              [any_league_alert; atp_alert] "U1" (allocate [atp_event]))
    as (_ & _ & _ & _ & _ & _ & _ & _ & Honce).
  - apply (bool_decide_unpack _). by vm_compute.
  - vm_compute. in_list.
  - destruct (Honce {| addr := 0; val := atp_event |} any_league_alert atp_alert)
      as (_ & _ & Hdigest); [in_list | in_list | in_list | done | done | | | done].
    + by vm_compute.
    + by vm_compute.
Defined.

Lemma broadcasters_section_groups_witness :
  block_broadcasters (generateEventHTML (H := asciiHost) shown_event ∅)
  = [ GroupHeader "TV";
      BroadcasterRow (Broadcaster.mk 3 "Canal+" "https://canalplus.com" (Some "tv")) "tv";
      BroadcasterRow (Broadcaster.mk 1 "TF1" "https://tf1.fr" (Some "tv")) "tv";
      GroupHeader "STREAMING";
      BroadcasterRow (Broadcaster.mk 2 "DAZN" "https://dazn.com" (Some "streaming"))
        "streaming" ]
  ∧ BroadcasterRow (Broadcaster.mk 4 "RMC" "https://rmc.fr" (Some "radio")) "radio"
      ∉ block_broadcasters (generateEventHTML (H := asciiHost) shown_event ∅).
Proof.
  destruct (broadcasters_section_groups (H := asciiHost) shown_event ∅
              codeCompare_total codeCompare_trans)
    as (tv & streaming & _ & _ & _ & _ & _ & _ & Hrows & _).
  split; [by vm_compute|].
  intros (_ & _ & [?|?])%Hrows; done.
Defined.

(** The counterexample to C8 as stated: an event shown on television only.
    Its section is the group "TV" alone, one group and not two, although
    the two groups are not both empty. *)
Lemma tv_only_event_has_one_group :
  block_broadcasters (generateEventHTML (H := asciiHost) tv_only_event ∅)
  = [ GroupHeader "TV";
      BroadcasterRow (Broadcaster.mk 1 "TF1" "https://tf1.fr" (Some "tv")) "tv" ]
  ∧ (GroupHeader "STREAMING"
       ∉ block_broadcasters (generateEventHTML (H := asciiHost) tv_only_event ∅))
  ∧ ¬ two_groups_as_stated tv_only_event
        (block_broadcasters (generateEventHTML (H := asciiHost) tv_only_event ∅)).
Proof.
  assert (block_broadcasters (generateEventHTML (H := asciiHost) tv_only_event ∅)
          = [ GroupHeader "TV";
              BroadcasterRow (Broadcaster.mk 1 "TF1" "https://tf1.fr" (Some "tv")) "tv" ])
    as Hsection by (by vm_compute).
  split; [done|]. rewrite Hsection. split.
  - rewrite !elem_of_cons, elem_of_nil. intros [?|[?|[]]]; done.
  - intros [_ Hheaders]. by discriminate Hheaders.
Qed.

Lemma events_error_aborts_run_witness :
  script (H := asciiHost) some_env (scenario any_league_alert events_failed)
  = Some ([ConsoleLog LogStarting; ConsoleLog (LogAfter6 20 "2024-05-01");
           ConsoleError (Caught "Error fetching events: connection refused")], 0).
Proof.
  destruct (events_error_aborts_run (H := asciiHost) some_env
              (scenario any_league_alert events_failed) "connection refused")
    as (tr & -> & -> & _).
  - by repeat split.
  - by vm_compute.
  - by vm_compute.
Defined.

(** The counterexample to C7 as stated: the events query fails, and the
    process ends with status 0, not with a status other than zero. *)
Lemma events_error_exit_status_zero :
  script (H := asciiHost) some_env (scenario any_league_alert events_failed)
  = Some ([ConsoleLog LogStarting; ConsoleLog (LogAfter6 20 "2024-05-01");
           ConsoleError (Caught "Error fetching events: connection refused")], 0)
  ∧ ¬ aborts_with_failure_status
        (script (H := asciiHost) some_env (scenario any_league_alert events_failed)).
Proof.
  assert (script (H := asciiHost) some_env (scenario any_league_alert events_failed)
          = Some ([ConsoleLog LogStarting; ConsoleLog (LogAfter6 20 "2024-05-01");
                   ConsoleError (Caught "Error fetching events: connection refused")], 0))
    as Hrun by (by vm_compute).
  split; [done|]. rewrite Hrun.
  intros (tr & status & message & [= <- <-] & _ & _ & Hstatus). done.
Qed.

Lemma no_events_ends_run_early_witness :
  main (H := asciiHost) (scenario any_league_alert no_rows)
  = Some ([ConsoleLog LogStarting; ConsoleLog (LogAfter6 20 "2024-05-01");
           ConsoleLog LogNoEvents], Resolved).
Proof.
  refine (proj1 (no_events_ends_run_early (H := asciiHost)
                   (scenario any_league_alert no_rows) _ _)); by vm_compute.
Defined.

(** The two scenarios of the specification: with no league filter the one
    user is sent the one event; with the WTA code nothing matches and
    nothing is sent. *)
Example scenario_one_send :
  (pacing ∘ fst <$> main (H := asciiHost) (scenario any_league_alert events_ok))
  = Some [PaceSend "a@b.com"; PaceShort]
  ∧ (pacing ∘ fst <$> main (H := asciiHost) (scenario wta_alert events_ok)) = Some [].
Proof. split; by vm_compute. Qed.

(** * Further properties of the script *)

(** ** The lookup tables (main, lines 61-64) *)

Lemma fromEntries_lookup_last `{Countable K} {V} (entries : list (K * V)) (k : K) :
  JS.fromEntries entries !! k = snd <$> last (filter (λ kv, kv.1 = k) entries).
Proof.
  induction entries as [|kv l IH] using rev_ind; [done|].
  rewrite fromEntries_snoc, lookup_insert, filter_app, filter_cons, filter_nil.
  destruct (decide (kv.1 = k)) as [Hk|Hk].
  - by rewrite last_snoc.
  - by rewrite app_nil_r.
Qed.

Lemma fromEntries_lookup_NoDup `{Countable K} {V} (entries : list (K * V)) (k : K) (v : V) :
  NoDup entries.*1 → (k, v) ∈ entries → JS.fromEntries entries !! k = Some v.
Proof.
  intros Hnd Hin. rewrite fromEntries_lookup_last.
  assert (filter (λ kv, kv.1 = k) entries = [(k, v)]) as ->; [|done].
  induction entries as [|[k' v'] l IH]; [by apply elem_of_nil in Hin|].
  csimpl in Hnd. apply NoDup_cons in Hnd as [Hk' Hnd].
  rewrite filter_cons. simpl. apply elem_of_cons in Hin as [[= <- <-]|Hin].
  - rewrite decide_True by done. f_equal.
    apply elem_of_nil_inv. intros [k2 v2] Hin2.
    apply list_elem_of_filter in Hin2 as [Hk2 Hin2]. simpl in Hk2. subst k2.
    apply Hk', list_elem_of_fmap. by exists (k, v2).
  - rewrite decide_False; [by apply IH|].
    intros ->. apply Hk', list_elem_of_fmap. by exists (k, v).
Qed.

(** [Object.fromEntries] keeps, for a key, the value of the last entry with
    that key; a key no entry has is absent; and in a list whose keys are
    distinct every entry is found under its key. *)
Theorem fromEntries_last_wins `{Countable K} {V} (entries : list (K * V)) (k : K) :
  JS.fromEntries entries !! k = snd <$> last (filter (λ kv, kv.1 = k) entries)
  ∧ (JS.fromEntries entries !! k = None ↔ k ∉ entries.*1)
  ∧ (∀ v, NoDup entries.*1 → (k, v) ∈ entries → JS.fromEntries entries !! k = Some v).
Proof.
  split; [apply fromEntries_lookup_last|].
  split; [apply fromEntries_lookup_None|].
  intros v. apply fromEntries_lookup_NoDup.
Qed.

(** ** The team table and the generic rule (main, lines 62 and 81) *)

Section TeamTable.
Context `{Host}.

Lemma teamsMapOf_lookup_row w teamsMap team name :
  teamsMapOf w = Some teamsMap →
  NoDup (Team.id <$> Res.rows (teamsRes w)) →
  team ∈ Res.rows (teamsRes w) → Team.name team = Some name →
  teamsMap !! Team.id team = Some (toLowerCase name).
Proof.
  unfold teamsMapOf. intros Hmap Hnd Hin Hname.
  destruct (teamEntries (Res.rows (teamsRes w))) as [entries|] eqn:Hentries; [|done].
  injection Hmap as <-.
  apply teamEntries_Some in Hentries.
  apply fromEntries_lookup_NoDup.
  - replace (entries.*1) with (Team.id <$> Res.rows (teamsRes w)); [done|].
    clear Hnd Hin. induction Hentries as [|t e rows entries (n & _ & ->) _ IH];
      [done|]. rewrite !fmap_cons. by f_equal.
  - clear Hnd. revert Hin.
    induction Hentries as [|t e rows entries (n & Hn & ->) _ IH].
    + by intros ?%elem_of_nil.
    + rewrite !elem_of_cons. intros [->|Hin].
      * left. congruence.
      * right. by apply IH.
Qed.

(** The generic rule on the rows of the teams query. In a run whose team
    table is built from rows with distinct ids, for a non-tennis event
    with its two participant details and an alert of the same sport whose
    team filter is not 0, the pair matches exactly when the alert has no
    team filter or its team_id is the id of a row whose name, lower-cased,
    is the lower-cased value of one of the two details. *)
Theorem generic_rule_with_known_team (w : World) (teamsMap : gmap Z string)
    (event : Event.t) (alert : Alert.t) (d1 d2 : string) :
  teamsMapOf w = Some teamsMap →
  NoDup (Team.id <$> Res.rows (teamsRes w)) →
  Event.sport_id event ≠ 20 →
  Alert.sport_id alert = Event.sport_id event →
  Event.event_detail_1 event = Some d1 →
  Event.event_detail_2 event = Some d2 →
  Alert.team_id alert ≠ Some 0 →
  matches teamsMap event alert = true
  ↔ generic_rule_on_teams (Res.rows (teamsRes w)) event alert.
Proof.
  intros Hteams Hnd He Ha H1 H2 H0.
  rewrite (generic_rule_with_both_details teamsMap event alert d1 d2) by done.
  unfold generic_rule_as_stated, generic_rule_on_teams. split.
  - intros [?|(t & v & Ht & Hlook & d & Hd & ->)]; [by left | right].
    destruct (teamsMapOf_lookup w teamsMap t _ Hteams Hlook)
      as (team & name & Hin & <- & Hname & Hlower).
    by exists team, name, d.
  - intros [?|(team & name & d & Hin & Ht & Hname & Hd & Hlower)]; [by left | right].
    exists (Team.id team), (toLowerCase name).
    split; [done|]. split; [by apply (teamsMapOf_lookup_row w)|].
    by exists d.
Qed.

End TeamTable.

(** ** The matcher, user by user (main, lines 73-88) *)

Section MatcherBySet.
Context `{Host}.

Implicit Types (teamsMap : gmap Z string) (m : UserEventsMap) (s : EventSet).

Lemma qualifies_b_true teamsMap alerts u event :
  qualifies_b teamsMap alerts u event = true ↔ qualifies teamsMap alerts u event.
Proof.
  unfold qualifies_b, qualifies. rewrite existsb_exists. split.
  - intros (alert & Hin & Hc). apply andb_true_iff in Hc as [Hu Hm].
    apply bool_decide_eq_true in Hu. exists alert.
    by rewrite list_elem_of_In.
  - intros (alert & Hin & Hu & Hm). exists alert.
    rewrite <- list_elem_of_In. split; [done|].
    apply andb_true_iff. by rewrite bool_decide_eq_true.
Qed.

Lemma Set_add_again s o : Set_add (Set_add s o) o = Set_add s o.
Proof.
  unfold Set_add at 2 3. destruct (Set_has s o) eqn:Hhas.
  - unfold Set_add. by rewrite Hhas.
  - unfold Set_add, Set_has. rewrite bool_decide_eq_true_2; [done|].
    rewrite fmap_app, elem_of_app. right. apply list_elem_of_here.
Qed.

Lemma Set_add_fresh s o : addr o ∉ addr <$> s → Set_add s o = s ++ [o].
Proof.
  intros Hfresh. unfold Set_add, Set_has. by rewrite bool_decide_eq_false_2.
Qed.

(** The set of a user, an absent one read as empty, after one alert. *)
Lemma match_alert_user_set teamsMap o m alert u :
  default [] (Map_get (match_alert teamsMap o m alert) u)
  = if bool_decide (Alert.user_id alert = u) && matches teamsMap (val o) alert
    then Set_add (default [] (Map_get m u)) o
    else default [] (Map_get m u).
Proof.
  rewrite match_alert_matches.
  destruct (matches teamsMap (val o) alert); [|by rewrite andb_false_r].
  rewrite andb_true_r, record_match_get.
  case_bool_decide as Hu.
  - subst u. by rewrite decide_True.
  - by rewrite decide_False.
Qed.

Lemma match_event_user_set teamsMap alerts o m u :
  default [] (Map_get (match_event teamsMap alerts m o) u)
  = if qualifies_b teamsMap alerts u (val o)
    then Set_add (default [] (Map_get m u)) o
    else default [] (Map_get m u).
Proof.
  unfold match_event, qualifies_b. revert m.
  induction alerts as [|alert alerts IH]; intros m; simpl; [done|].
  rewrite IH, match_alert_user_set.
  destruct (bool_decide (Alert.user_id alert = u) && matches teamsMap (val o) alert);
    simpl; [|done].
  case_match; [apply Set_add_again | done].
Qed.

Lemma matcher_user_set_from teamsMap alerts events m u :
  default [] (Map_get (foldl (match_event teamsMap alerts) m events) u)
  = foldl (λ s o, if qualifies_b teamsMap alerts u (val o) then Set_add s o else s)
      (default [] (Map_get m u)) events.
Proof.
  revert m. induction events as [|o events IH]; intros m; simpl; [done|].
  by rewrite IH, match_event_user_set.
Qed.

(** Over distinct objects none of which is in the set yet, adding the
    qualifying ones one by one is filtering. *)
Lemma add_qualifying_filter (P : EventObj → bool) (events : list EventObj) s :
  NoDup (addr <$> events) →
  (∀ o, o ∈ events → addr o ∉ addr <$> s) →
  foldl (λ s o, if P o then Set_add s o else s) s events
  = s ++ filter (λ o, P o = true) events.
Proof.
  revert s. induction events as [|o events IH]; intros s Hnd Hfresh; csimpl.
  - by rewrite app_nil_r.
  - csimpl in Hnd. apply NoDup_cons in Hnd as [Ho Hnd]. rewrite filter_cons.
    destruct (P o) eqn:HP.
    + rewrite decide_True by done.
      rewrite Set_add_fresh by (apply Hfresh, list_elem_of_here).
      rewrite IH; [by rewrite <- app_assoc | done |].
      intros o' Ho'. rewrite fmap_app, not_elem_of_app. split.
      * by apply Hfresh, list_elem_of_further.
      * simpl. rewrite list_elem_of_singleton. intros Heq.
        apply Ho. rewrite <- Heq. apply list_elem_of_fmap. by exists o'.
    + rewrite decide_False by (by intros ?).
      apply IH; [done|]. intros o' Ho'. by apply Hfresh, list_elem_of_further.
Qed.

(** The matcher, user by user: a user's set is the list of the events of
    the run that one of the user's alerts matches, in the order of the
    events array; a user none of whose alerts matches any event is not in
    the mapping. The alerts of other users play no part. *)
Theorem matcher_user_set teamsMap (events : list EventObj) (alerts : list Alert.t)
    (u : string) :
  NoDup (addr <$> events) →
  let matched := filter (λ o, qualifies_b teamsMap alerts u (val o) = true) events in
  Map_get (matcher teamsMap events alerts) u
    = match matched with [] => None | _ => Some matched end
  ∧ (u ∈ (matcher teamsMap events alerts).*1
     ↔ ∃ o, o ∈ events ∧ qualifies teamsMap alerts u (val o))
  ∧ Map_get (matcher teamsMap events alerts) u
    = Map_get (matcher teamsMap events
                 (filter (λ alert, Alert.user_id alert = u) alerts)) u.
Proof.
  intros Hnd matched.
  assert (∀ alerts', default [] (Map_get (matcher teamsMap events alerts') u)
          = filter (λ o, qualifies_b teamsMap alerts' u (val o) = true) events)
    as Hset.
  { intros alerts'. unfold matcher. rewrite matcher_user_set_from. simpl.
    rewrite (add_qualifying_filter (λ o, qualifies_b teamsMap alerts' u (val o)));
      [done | done |].
    intros o _. apply not_elem_of_nil. }
  assert (∀ alerts', Map_get (matcher teamsMap events alerts') u
          = match filter (λ o, qualifies_b teamsMap alerts' u (val o) = true) events
            with
            | [] => None
            | _ => Some (filter (λ o, qualifies_b teamsMap alerts' u (val o) = true)
                           events)
            end) as Hget.
  { intros alerts'. specialize (Hset alerts').
    destruct (Map_get (matcher teamsMap events alerts') u) as [s|] eqn:Hg.
    - simpl in Hset. rewrite <- Hset.
      destruct (matcher_well_formed teamsMap events alerts') as [_ Hsets].
      rewrite Forall_forall in Hsets.
      destruct (Hsets _ (Map_get_elem _ _ _ Hg)) as [Hne _]. simpl in Hne.
      by destruct s.
    - simpl in Hset. by rewrite <- Hset. }
  split; [apply Hget|]. split.
  - assert (u ∈ (matcher teamsMap events alerts).*1
            ↔ Map_get (matcher teamsMap events alerts) u ≠ None) as ->.
    { rewrite Map_get_None.
      destruct (decide (u ∈ (matcher teamsMap events alerts).*1)) as [Hin|Hin].
      - split; [by intros _ ? | done].
      - split; [done | by intros Hn]. }
    rewrite Hget. fold matched. split.
    + intros Hne. destruct matched as [|o l] eqn:Hm; [done|].
      assert (o ∈ matched) as Ho by (rewrite Hm; apply list_elem_of_here).
      apply list_elem_of_filter in Ho as [Hq Ho].
      exists o. split; [done | by apply qualifies_b_true].
    + intros (o & Ho & Hq).
      assert (o ∈ matched) as Hin.
      { apply list_elem_of_filter. split; [by apply qualifies_b_true | done]. }
      by destruct matched; [apply elem_of_nil in Hin|].
  - rewrite !Hget.
    assert (∀ event, qualifies_b teamsMap
                       (filter (λ alert, Alert.user_id alert = u) alerts) u event
                     = qualifies_b teamsMap alerts u event) as Hsame.
    { intros event. apply eq_true_iff_eq. rewrite !qualifies_b_true.
      unfold qualifies. split.
      - intros (alert & Hin & Hu & Hm). apply list_elem_of_filter in Hin as [_ Hin].
        by exists alert.
      - intros (alert & Hin & Hu & Hm). exists alert.
        rewrite list_elem_of_filter. done. }
    assert (filter (λ o, qualifies_b teamsMap
                           (filter (λ alert, Alert.user_id alert = u) alerts) u (val o)
                         = true) events
            = filter (λ o, qualifies_b teamsMap alerts u (val o) = true) events)
      as ->; [|done].
    apply list_filter_iff. intros o. by rewrite Hsame.
Qed.

End MatcherBySet.

(** ** What a filter does not touch (main, lines 75-81) *)

Section FilterFrame.
Context `{Host}.

(** On a tennis event only the alert's league filter and the event's
    competition decide: the team filter, the team table and the event's
    participant details play no part. On any other event only the team
    filter, the team table and the two details decide: the league filter
    and the competition play no part. *)
Theorem filters_by_branch (teamsMap teamsMap' : gmap Z string)
    (event event' : Event.t) (alert alert' : Alert.t) :
  Alert.sport_id alert' = Alert.sport_id alert →
  Event.sport_id event' = Event.sport_id event →
  (Event.sport_id event = 20 →
   Alert.league_id alert' = Alert.league_id alert →
   Event.competition event' = Event.competition event →
   matches teamsMap' event' alert' = matches teamsMap event alert)
  ∧ (Event.sport_id event ≠ 20 →
     Alert.team_id alert' = Alert.team_id alert →
     Event.event_detail_1 event' = Event.event_detail_1 event →
     Event.event_detail_2 event' = Event.event_detail_2 event →
     matches teamsMap event' alert' = matches teamsMap event alert).
Proof.
  intros Ha He. unfold matches, isMatch. rewrite Ha, He. split.
  - intros -> Hl Hc. rewrite Hl, Hc. by rewrite Z.eqb_refl.
  - intros Hs Ht H1 H2. rewrite Ht, H1, H2.
    by destruct (Z.eqb_spec (Event.sport_id event) 20).
Qed.

(** More events or more alerts never take an event out of a user's set. *)
Theorem matcher_monotone (teamsMap : gmap Z string) (events events' : list EventObj)
    (alerts alerts' : list Alert.t) (u : string) (a : nat) :
  events ⊆ events' → alerts ⊆ alerts' →
  holds (matcher teamsMap events alerts) u a →
  holds (matcher teamsMap events' alerts') u a.
Proof.
  intros Hev Hal. rewrite !matcher_holds.
  intros (o & Ho & Ha & alert & Hin & Hu & Hm).
  exists o. split; [by apply Hev|]. split; [done|].
  exists alert. split; [by apply Hal | done].
Qed.

End FilterFrame.

(** ** The enriched events of a run (main, lines 64-70) *)

Section EnrichedRun.
Context `{Host}.

Lemma eventsOf_lookup (w : World) (i : nat) :
  eventsOf w !! i
  = (λ row, {| addr := i; val := enrich (broadcasterMapOf w) row |})
    <$> Res.rows (eventsRes w (targetDate (nowParis w))) !! i.
Proof.
  unfold eventsOf, enrichAll, allocate.
  rewrite list_lookup_fmap, list_lookup_imap.
  by destruct (Res.rows (eventsRes w (targetDate (nowParis w))) !! i).
Qed.

(** Every event object of a run is a row of the events query, at the
    position of its address, with the broadcasters list set; and every
    broadcaster on that list is a row of the broadcasters query whose id the
    event lists. No row of the events query is lost, and no two event
    objects are the same object. *)
Theorem enriched_events_of_run (w : World) :
  length (eventsOf w) = length (Res.rows (eventsRes w (targetDate (nowParis w))))
  ∧ NoDup (addr <$> eventsOf w)
  ∧ ∀ o, o ∈ eventsOf w →
      ∃ row bs,
        Res.rows (eventsRes w (targetDate (nowParis w))) !! addr o = Some row
        ∧ val o = enrich (broadcasterMapOf w) row
        ∧ Event.broadcasters (val o) = Some bs
        ∧ ∀ b, b ∈ bs →
            b ∈ Res.rows (broadcastersRes w)
            ∧ Broadcaster.id b ∈ default [] (Event.broadcaster_ids row).
Proof.
  split; [|split].
  - unfold eventsOf, enrichAll, allocate. by rewrite length_fmap, length_imap.
  - apply eventsOf_distinct.
  - intros o Ho. apply list_elem_of_lookup in Ho as [i Hi].
    rewrite eventsOf_lookup in Hi.
    destruct (Res.rows (eventsRes w (targetDate (nowParis w))) !! i) as [row|] eqn:Hrow;
      [|done].
    injection Hi as <-. simpl.
    exists row, (resolveBroadcasters (broadcasterMapOf w) (Event.broadcaster_ids row)).
    split; [done|]. split; [done|]. split; [done|].
    intros b Hb. rewrite resolveBroadcasters_omap, list_elem_of_omap in Hb.
    destruct Hb as (id & Hid & Hl). unfold broadcasterMapOf in Hl.
    apply fromEntries_lookup_Some, list_elem_of_fmap in Hl as (b' & [= -> ->] & Hb').
    done.
Qed.

End EnrichedRun.

(** ** The dispatcher: what is sent, counted and waited (main, lines 93-127) *)

Lemma mails_app (a b : list Effect) : mails (a ++ b) = mails a ++ mails b.
Proof.
  induction a as [|e a IH]; simpl; [done|].
  destruct e; simpl; by rewrite ?IH.
Qed.

Lemma total_sleep_app (a b : list Effect) :
  total_sleep (a ++ b) = total_sleep a + total_sleep b.
Proof.
  induction a as [|e a IH]; simpl; [done|].
  destruct e; simpl; rewrite ?IH; lia.
Qed.

Lemma count_lines_app (f : Effect → bool) (a b : list Effect) :
  count_lines f (a ++ b) = (count_lines f a + count_lines f b)%nat.
Proof. unfold count_lines. by rewrite filter_app, length_app. Qed.

Section DispatcherEffects.
Context `{Host}.
Variables (sportsMap : gmap Z Sport.t) (userIdToEmail : gmap string (option string))
  (send_ok : nat → bool).

Implicit Types (p : Progress) (usersList : list (string * EventSet)).

Lemma deliver_mails p entry :
  mails (trace (deliver sportsMap userIdToEmail send_ok p entry))
  = mails (trace p) ++ omap (mail_for sportsMap userIdToEmail) [entry].
Proof.
  unfold deliver, mail_for, eligible. csimpl.
  destruct (JS.truthy_str (mjoin (userIdToEmail !! entry.1))); simpl;
    [|by rewrite app_nil_r].
  destruct (length entry.2 =? 0)%nat; simpl; [by rewrite app_nil_r|].
  destruct (send_ok (sent p + failed p)); simpl;
    rewrite !mails_app; simpl; by rewrite app_nil_r.
Qed.

Lemma batch_mails p batch :
  mails (trace (foldl (deliver sportsMap userIdToEmail send_ok) p batch))
  = mails (trace p) ++ omap (mail_for sportsMap userIdToEmail) batch.
Proof.
  revert p. induction batch as [|entry batch IH]; intros p; simpl foldl.
  - by rewrite app_nil_r.
  - rewrite IH, deliver_mails, <- app_assoc. f_equal.
    change (entry :: batch) with ([entry] ++ batch). by rewrite omap_app.
Qed.

Lemma dispatch_from_mails (B fuel : nat) usersList (i : nat) p p' :
  dispatch_from fuel B sportsMap userIdToEmail send_ok usersList i p = Some p' →
  mails (trace p')
  = mails (trace p) ++ omap (mail_for sportsMap userIdToEmail) (drop i usersList).
Proof.
  revert i p. induction fuel as [|fuel IH]; intros i p; simpl; [done|].
  destruct (Nat.ltb_spec i (length usersList)) as [Hi|Hi].
  - intros Hrun. apply IH in Hrun. rewrite Hrun.
    assert (mails (trace (if (i + B <? length usersList)%nat
                          then emit (foldl (deliver sportsMap userIdToEmail send_ok) p
                                       (JS.slice i (i + B) usersList))
                                 [Sleep DELAY_BETWEEN_BATCHES]
                          else foldl (deliver sportsMap userIdToEmail send_ok) p
                                 (JS.slice i (i + B) usersList)))
            = mails (trace p)
              ++ omap (mail_for sportsMap userIdToEmail) (take B (drop i usersList)))
      as ->.
    { unfold JS.slice. replace (i + B - i)%nat with B by lia.
      case_match; simpl; rewrite ?mails_app, batch_mails; simpl;
        by rewrite ?app_nil_r. }
    rewrite <- app_assoc, <- omap_app. f_equal. f_equal.
    by rewrite <- drop_drop, take_drop.
  - intros [= <-]. rewrite drop_ge by lia. by rewrite app_nil_r.
Qed.

Lemma deliver_tallied p entry :
  tallied send_ok p → tallied send_ok (deliver sportsMap userIdToEmail send_ok p entry).
Proof.
  intros (Hs & Hf & Hm & Hok). unfold deliver.
  case_match; [done|].
  assert (seq 0 (S (sent p + failed p)) = seq 0 (sent p + failed p) ++ [(sent p + failed p)%nat])
    as Hseq by (by rewrite seq_S).
  destruct (send_ok (sent p + failed p)) eqn:Hsend; unfold tallied, emit;
    cbn [trace sent failed];
    rewrite <- !app_assoc, !count_lines_app, !mails_app, !length_app;
    cbn [app mails length count_lines is_sent_line is_failed_line].
  - replace (S (sent p) + failed p)%nat with (S (sent p + failed p)) by lia.
    rewrite Hseq, filter_app, length_app, filter_cons, filter_nil.
    rewrite decide_True by done.
    unfold count_lines in *. rewrite !filter_cons, !filter_nil. simpl. lia.
  - replace (sent p + S (failed p))%nat with (S (sent p + failed p)) by lia.
    rewrite Hseq, filter_app, length_app, filter_cons, filter_nil.
    rewrite decide_False by (rewrite Hsend; done).
    unfold count_lines in *. rewrite !filter_cons, !filter_nil. simpl. lia.
Qed.

Lemma batch_tallied p batch :
  tallied send_ok p →
  tallied send_ok (foldl (deliver sportsMap userIdToEmail send_ok) p batch).
Proof.
  revert p. induction batch as [|entry batch IH]; intros p Hp; simpl; [done|].
  by apply IH, deliver_tallied.
Qed.

Lemma sleep_tallied p (ms : Z) : tallied send_ok p → tallied send_ok (emit p [Sleep ms]).
Proof.
  intros (Hs & Hf & Hm & Hok). unfold tallied, emit. cbn [trace sent failed].
  rewrite !count_lines_app, mails_app, length_app.
  unfold count_lines. rewrite !filter_cons, !filter_nil. simpl.
  rewrite !Nat.add_0_r. done.
Qed.

Lemma dispatch_from_tallied (B fuel : nat) usersList (i : nat) p p' :
  dispatch_from fuel B sportsMap userIdToEmail send_ok usersList i p = Some p' →
  tallied send_ok p → tallied send_ok p'.
Proof.
  revert i p. induction fuel as [|fuel IH]; intros i p; simpl; [done|].
  case_match; [|by intros [= <-]].
  intros Hrun Hp. apply IH in Hrun; [done|].
  case_match; [apply sleep_tallied|]; by apply batch_tallied.
Qed.

Lemma batch_total_sleep p batch :
  total_sleep (trace (foldl (deliver sportsMap userIdToEmail send_ok) p batch))
  = total_sleep (trace p)
    + DELAY_BETWEEN_EMAILS * Z.of_nat (eligible_count userIdToEmail batch).
Proof.
  revert p. induction batch as [|entry batch IH]; intros p; simpl foldl.
  - unfold eligible_count. simpl. lia.
  - rewrite IH. unfold eligible_count. rewrite filter_cons.
    unfold deliver, eligible.
    destruct (JS.truthy_str (mjoin (userIdToEmail !! entry.1))); simpl; [|lia].
    destruct (length entry.2 =? 0)%nat; simpl; [lia|].
    destruct (send_ok (sent p + failed p)); simpl;
      rewrite !total_sleep_app; simpl; lia.
Qed.

Lemma dispatch_from_total_sleep (B fuel : nat) usersList (i : nat) p p' :
  (0 < B)%nat →
  dispatch_from fuel B sportsMap userIdToEmail send_ok usersList i p = Some p' →
  total_sleep (trace p')
  = total_sleep (trace p)
    + DELAY_BETWEEN_EMAILS * Z.of_nat (eligible_count userIdToEmail (drop i usersList))
    + DELAY_BETWEEN_BATCHES * Z.of_nat (pred (length (groups B (drop i usersList)))).
Proof.
  intros HB. revert i p. induction fuel as [|fuel IH]; intros i p; simpl; [done|].
  destruct (Nat.ltb_spec i (length usersList)) as [Hi|Hi].
  - intros Hrun. apply IH in Hrun. rewrite Hrun. clear Hrun IH.
    assert (drop i usersList ≠ []) as Hne.
    { intros Hnil. apply (f_equal length) in Hnil.
      rewrite length_drop in Hnil. simpl in Hnil. lia. }
    rewrite (groups_step B (drop i usersList)) by done. rewrite drop_drop.
    assert (eligible_count userIdToEmail (drop i usersList)
            = eligible_count userIdToEmail (take B (drop i usersList))
              + eligible_count userIdToEmail (drop (i + B) usersList))%nat as ->.
    { rewrite <- (take_drop B (drop i usersList)) at 1.
      unfold eligible_count. by rewrite filter_app, length_app, drop_drop. }
    unfold JS.slice. replace (i + B - i)%nat with B by lia.
    destruct (Nat.ltb_spec (i + B) (length usersList)) as [Hmore|Hlast].
    + assert (drop (i + B) usersList ≠ []) as Hne'.
      { intros Hnil. apply (f_equal length) in Hnil.
        rewrite length_drop in Hnil. simpl in Hnil. lia. }
      rewrite (groups_step B (drop (i + B) usersList)) by done.
      simpl trace. rewrite total_sleep_app, batch_total_sleep. simpl. lia.
    + rewrite (drop_ge usersList (i + B)) by lia.
      rewrite groups_nil, batch_total_sleep.
      unfold eligible_count. simpl. lia.
  - intros [= <-]. rewrite drop_ge by lia. rewrite groups_nil.
    unfold eligible_count. simpl. lia.
Qed.

End DispatcherEffects.

Section DispatcherTheorems.
Context `{Host}.

Implicit Types (p : Progress) (usersList : list (string * EventSet)).

(** What the dispatcher sends: one e-mail per entry of the list that has an
    address and a non-empty set, in the order of the list, to that address,
    with the rendered digest of that set. Neither the batch size nor what
    the transport answers changes this: a failed send takes no later send
    away. *)
Theorem dispatcher_sends (B : nat) (sportsMap : gmap Z Sport.t)
    (userIdToEmail : gmap string (option string)) (send_ok : nat → bool)
    usersList p :
  (0 < B)%nat →
  ∃ p', dispatch B sportsMap userIdToEmail send_ok usersList p = Some p'
    ∧ mails (trace p')
      = mails (trace p) ++ omap (mail_for sportsMap userIdToEmail) usersList
    ∧ ∀ (B' : nat) (send_ok' : nat → bool) p'',
        dispatch B' sportsMap userIdToEmail send_ok' usersList p = Some p'' →
        mails (trace p'') = mails (trace p').
Proof.
  intros HB.
  destruct (dispatch_from_spec sportsMap userIdToEmail send_ok B
              (S (length usersList)) usersList 0 p HB) as (p' & Hp' & _); [lia|].
  exists p'. split; [done|].
  pose proof (dispatch_from_mails _ _ _ _ _ _ _ _ _ Hp') as Hm.
  rewrite drop_0 in Hm. split; [done|].
  intros B' send_ok' p'' Hp''.
  apply dispatch_from_mails in Hp''. rewrite drop_0 in Hp''. by rewrite Hp'', Hm.
Qed.

(** The time the dispatcher spends waiting: the short delay once per e-mail
    attempted and the longer delay once per batch but the last. *)
Theorem dispatcher_total_delay (B : nat) (sportsMap : gmap Z Sport.t)
    (userIdToEmail : gmap string (option string)) (send_ok : nat → bool)
    usersList p :
  (0 < B)%nat →
  ∃ p', dispatch B sportsMap userIdToEmail send_ok usersList p = Some p'
    ∧ total_sleep (trace p')
      = total_sleep (trace p)
        + DELAY_BETWEEN_EMAILS * Z.of_nat (eligible_count userIdToEmail usersList)
        + DELAY_BETWEEN_BATCHES
          * Z.of_nat (pred ((length usersList + B - 1) / B)).
Proof.
  intros HB.
  destruct (dispatch_from_spec sportsMap userIdToEmail send_ok B
              (S (length usersList)) usersList 0 p HB) as (p' & Hp' & _); [lia|].
  exists p'. split; [done|].
  rewrite (dispatch_from_total_sleep _ _ _ _ _ _ _ _ _ HB Hp').
  by rewrite drop_0, groups_length.
Qed.

Lemma before_dispatch_quiet (w : World) (found preparing : nat) (date : string) :
  let t := [ConsoleLog LogStarting; (resolveTargetDate (nowParis w)).2;
            ConsoleLog (LogFound found date); ConsoleLog (LogPreparing preparing)] in
  mails t = [] ∧ total_sleep t = 0
  ∧ tallied (send_ok w) {| trace := t; sent := 0; failed := 0 |}.
Proof.
  unfold tallied, count_lines, resolveTargetDate. by case_match.
Qed.

Lemma main_mails_with_events (w : World) (teamsMap : gmap Z string) :
  Res.error (eventsRes w (targetDate (nowParis w))) = None →
  Res.rows (eventsRes w (targetDate (nowParis w))) ≠ [] →
  teamsMapOf w = Some teamsMap →
  ∃ tr, main w = Some (tr, Resolved)
        ∧ mails tr = omap (mail_for (sportsMapOf w) (userIdToEmailOf w))
                       (matcher teamsMap (eventsOf w) (Res.rows (alertsRes w))).
Proof.
  intros Herr Hrows Hteams.
  destruct (main_with_events w teamsMap Herr Hrows Hteams) as (p & Hp & ->).
  eexists. split; [done|].
  apply dispatch_from_mails in Hp. rewrite drop_0 in Hp.
  rewrite mails_app, Hp. cbn [trace].
  destruct (before_dispatch_quiet w
              (length (Res.rows (eventsRes w (targetDate (nowParis w)))))
              (length (matcher teamsMap (eventsOf w) (Res.rows (alertsRes w))))
              (targetDate (nowParis w))) as (-> & _).
  simpl. by rewrite app_nil_r.
Qed.

(** The e-mails of a run that has events and whose teams all have a name:
    the team table is built, the run resolves, and it sends one e-mail per
    matched user with an address, in the order the matcher met the users,
    each user once. *)
Theorem run_mails (w : World) :
  Res.error (eventsRes w (targetDate (nowParis w))) = None →
  Res.rows (eventsRes w (targetDate (nowParis w))) ≠ [] →
  teams_named w →
  ∃ teamsMap tr,
    teamsMapOf w = Some teamsMap
    ∧ main w = Some (tr, Resolved)
    ∧ mails tr
      = omap (mail_for (sportsMapOf w) (userIdToEmailOf w))
          (matcher teamsMap (eventsOf w) (Res.rows (alertsRes w)))
    ∧ NoDup (matcher teamsMap (eventsOf w) (Res.rows (alertsRes w))).*1.
Proof.
  intros Herr Hrows [teamsMap Hteams]%teamsMapOf_named.
  destruct (main_mails_with_events w teamsMap Herr Hrows Hteams)
    as (tr & Hmain & Hmails).
  exists teamsMap, tr. split; [done|]. split; [done|]. split; [done|].
  by destruct (matcher_well_formed teamsMap (eventsOf w) (Res.rows (alertsRes w))).
Qed.

(** The summary of a run that has events and whose teams all have a name
    agrees with its log: the line "done" is the last one, its first number
    is the number of lines "sent", its second the number of send errors
    logged, the two add up to the number of e-mails attempted, and the
    first counts the attempts the transport accepted. *)
Theorem run_summary_agrees_with_log (w : World) :
  Res.error (eventsRes w (targetDate (nowParis w))) = None →
  Res.rows (eventsRes w (targetDate (nowParis w))) ≠ [] →
  teams_named w →
  ∃ body (sent failed : nat),
    main w = Some (body ++ [ConsoleLog (LogDone sent failed)], Resolved)
    ∧ sent = count_lines is_sent_line body
    ∧ failed = count_lines is_failed_line body
    ∧ (sent + failed)%nat = length (mails body)
    ∧ sent = length (filter (λ k, send_ok w k = true) (seq 0 (sent + failed))).
Proof.
  intros Herr Hrows [teamsMap Hteams]%teamsMapOf_named.
  destruct (main_with_events w teamsMap Herr Hrows Hteams) as (p & Hp & ->).
  exists (trace p), (sent p), (failed p). split; [done|].
  apply dispatch_from_tallied in Hp; [done|].
  apply before_dispatch_quiet.
Qed.

Lemma mail_for_Some (sportsMap : gmap Z Sport.t)
    (userIdToEmail : gmap string (option string)) (entry : string * EventSet)
    (to : string) (html : Html) :
  mail_for sportsMap userIdToEmail entry = Some (to, html) →
  userIdToEmail !! entry.1 = Some (Some to) ∧ to ≠ "" ∧ entry.2 ≠ []
  ∧ html = generateEmailHTML (val <$> digestOf entry.2) sportsMap.
Proof.
  unfold mail_for, eligible.
  destruct (userIdToEmail !! entry.1) as [[addr|]|] eqn:Hu; simpl; [|done..].
  destruct (String.eqb_spec addr "") as [->|Hne]; simpl; [done|].
  destruct (Nat.eqb_spec (length entry.2) 0) as [Hlen|Hlen]; simpl; [done|].
  intros [= <- <-]. repeat split; try done.
  intros Hnil. by rewrite Hnil in Hlen.
Qed.

(** No e-mail without a match: whatever the run, every e-mail it sends goes
    to the non-empty address of a user of the users query who is in the
    matcher's mapping, and its body has one block for each event of that
    user's set: events of the run, each matched by an alert of that user. *)
Theorem every_mail_has_a_match (w : World) (tr : list Effect) (out : Outcome)
    (to : string) (html : Html) :
  main w = Some (tr, out) →
  (to, html) ∈ mails tr →
  ∃ teamsMap u s,
    teamsMapOf w = Some teamsMap
    ∧ (u, s) ∈ matcher teamsMap (eventsOf w) (Res.rows (alertsRes w))
    ∧ User.mk u (Some to) ∈ Res.rows (usersRes w)
    ∧ to ≠ "" ∧ s ≠ []
    ∧ html = generateEmailHTML (val <$> digestOf s) (sportsMapOf w)
    ∧ length html = length s
    ∧ ∀ o, o ∈ s →
        o ∈ eventsOf w
        ∧ qualifies teamsMap (Res.rows (alertsRes w)) u (val o).
Proof.
  intros Hmain Hin.
  destruct (Res.error (eventsRes w (targetDate (nowParis w)))) as [message|] eqn:Herr.
  { rewrite (main_events_error w message Herr) in Hmain. injection Hmain as <- <-.
    unfold resolveTargetDate in Hin. case_match; by apply elem_of_nil in Hin. }
  destruct (decide (Res.rows (eventsRes w (targetDate (nowParis w))) = []))
    as [Hrows|Hrows].
  { rewrite (main_no_events w Herr Hrows) in Hmain. injection Hmain as <- <-.
    unfold resolveTargetDate in Hin. case_match; by apply elem_of_nil in Hin. }
  destruct (teamsMapOf w) as [teamsMap|] eqn:Hteams; cycle 1.
  { rewrite (main_null_team_name w Herr Hrows Hteams) in Hmain.
    injection Hmain as <- <-.
    unfold resolveTargetDate in Hin. case_match; by apply elem_of_nil in Hin. }
  destruct (main_mails_with_events w teamsMap Herr Hrows Hteams)
    as (tr' & Hmain' & Hmails).
  rewrite Hmain' in Hmain. injection Hmain as <- <-.
  rewrite Hmails, list_elem_of_omap in Hin. destruct Hin as ([u s] & Hentry & Hmail).
  apply mail_for_Some in Hmail as (Hu & Hto & Hs & ->). simpl in Hu, Hs.
  exists teamsMap, u, s. split; [done|]. split; [done|]. split.
  - unfold userIdToEmailOf in Hu.
    apply fromEntries_lookup_Some, list_elem_of_fmap in Hu as ([u' e'] & [= -> ->] & Hrow).
    done.
  - split; [done|]. split; [done|]. split; [done|]. split.
    + unfold generateEmailHTML, digestOf.
      by rewrite !length_fmap, (Permutation_length (sort_perm _ _)).
    + intros o Ho.
      destruct (matcher_entry _ _ _ _ _ o Hentry Ho) as (_ & Hoe & Hq).
      split; [done|]. apply Hq.
      unfold eventsOf. rewrite enrichAll_addrs, allocate_addrs. apply NoDup_seq.
Qed.

End DispatcherTheorems.

(** ** The renderer: the order of the digest and the fields of a block
    (main, line 103; generateEventHTML, lines 193-209, 238, 268, 278) *)

Section RendererFields.
Context `{Host}.

(** The digest is in ascending order of [start_at], an event without one
    placed as one that starts at the empty string, and it has the events of
    the set, each once. *)
Theorem digest_sorted_by_start (s : EventSet) :
  (∀ a b : string, localeCompare a b ≤ 0 ∨ localeCompare b a ≤ 0) →
  (∀ a b c : string,
     localeCompare a b ≤ 0 → localeCompare b c ≤ 0 → localeCompare a c ≤ 0) →
  StronglySorted starts_no_later (digestOf s)
  ∧ digestOf s ≡ₚ s
  ∧ length (digestOf s) = length s.
Proof.
  intros Htotal Htrans. split; [|split].
  - apply (sort_StronglySorted byStart); unfold byStart; [auto | eauto].
  - apply sort_perm.
  - apply Permutation_length, sort_perm.
Qed.

Lemma substring_length_le (n : nat) (s : string) :
  (String.length (String.substring 0 n s) ≤ n)%nat.
Proof.
  revert s. induction n as [|n IH]; intros [|c s]; simpl; try lia.
  specialize (IH s). lia.
Qed.

Lemma substring_prefix (a b : string) :
  String.substring 0 (String.length a) (a +:+ b) = a.
Proof.
  induction a as [|c a IH]; simpl; [by destruct b | by rewrite IH].
Qed.

Lemma substring_short (n : nat) (s : string) :
  (String.length s ≤ n)%nat → String.substring 0 n s = s.
Proof.
  revert s. induction n as [|n IH]; intros [|c s]; simpl; try done; try lia.
  intros Hlen. rewrite IH; [done | lia].
Qed.

(** The time shown is the first five characters of the event's time
    ("HH:MM" of "HH:MM:SS"), the whole of a shorter one, and nothing for an
    event without a time; it never has more than five characters. *)
Theorem formatTime_first_five (timeStr : option string) :
  (String.length (formatTime timeStr) ≤ 5)%nat
  ∧ (timeStr = None → formatTime timeStr = "")
  ∧ (∀ hhmm rest, String.length hhmm = 5%nat →
       formatTime (Some (hhmm +:+ rest)) = hhmm)
  ∧ (∀ s, (String.length s ≤ 5)%nat → formatTime (Some s) = s).
Proof.
  split; [|split; [|split]].
  - destruct timeStr as [s|]; simpl; [apply substring_length_le | lia].
  - by intros ->.
  - intros hhmm rest Hlen. simpl. rewrite <- Hlen. apply substring_prefix.
  - intros s Hlen. by apply substring_short.
Qed.

Lemma append_empty_r (s : string) : s +:+ "" = s.
Proof.
  induction s as [|c s IH]; [done|].
  change (String c (s +:+ "") = String c s). by rewrite IH.
Qed.

Lemma or_str_nonempty (v : option string) (d : string) : d ≠ "" → JS.or_str v d ≠ "".
Proof.
  intros Hd. unfold JS.or_str. destruct v as [s|]; [|done].
  by destruct (String.eqb_spec s "").
Qed.

(** The fields of an event block and their fall-backs. The sport shown is
    the row of the sports query with the event's sport id, or the
    placeholder 'Sport' with the trophy when the query has no such row (an
    empty or failed sports query included). The competition is never shown
    empty: an absent or empty one is 'Compétition' in the title and 'N/A' in
    the details. The second participant detail is appended after " - " only
    when it is there and not empty, and an absent first detail is printed as
    the word null. *)
Theorem event_block_fields (w : World) (event : Event.t) :
  let block := generateEventHTML event (sportsMapOf w) in
  (Event.sport_id event ∉ Sport.id <$> Res.rows (sportsRes w) →
   block_sport block = "Sport" ∧ block_emoji block = "🏆")
  ∧ (∀ sport, NoDup (Sport.id <$> Res.rows (sportsRes w)) →
       sport ∈ Res.rows (sportsRes w) → Sport.id sport = Event.sport_id event →
       block_sport block = Sport.name sport ∧ block_emoji block = Sport.emoji sport)
  ∧ block_title_competition block ≠ "" ∧ block_competition block ≠ ""
  ∧ (∀ c, Event.competition event = Some c → c ≠ "" →
       block_title_competition block = c ∧ block_competition block = c)
  ∧ (Event.competition event = None ∨ Event.competition event = Some "" →
     block_title_competition block = "Compétition" ∧ block_competition block = "N/A")
  ∧ (Event.event_detail_2 event = None ∨ Event.event_detail_2 event = Some "" →
     block_event block = default "null" (Event.event_detail_1 event))
  ∧ (∀ d2, Event.event_detail_2 event = Some d2 → d2 ≠ "" →
       block_event block
       = default "null" (Event.event_detail_1 event) +:+ " - " +:+ d2)
  ∧ block_time block = formatTime (Event.time event)
  ∧ block_broadcasters block = broadcastersSection event.
Proof.
  intros block. subst block. unfold generateEventHTML. simpl.
  assert (∀ {A B} (f : A → B) (l : list A),
            ((λ x, (f x, x)) <$> l).*1 = f <$> l) as Hkeys.
  { intros A B f l. rewrite <- list_fmap_compose. by apply list_fmap_ext. }
  split; [|split; [|split; [|split; [|split; [|split; [|split; [|split]]]]]]].
  - intros Hmiss. unfold sportsMapOf.
    assert (JS.fromEntries ((λ s, (Sport.id s, s)) <$> Res.rows (sportsRes w))
              !! Event.sport_id event = None) as ->; [|done].
    apply fromEntries_lookup_None. by rewrite Hkeys.
  - intros sport Hnd Hin Hid. unfold sportsMapOf.
    rewrite (fromEntries_lookup_NoDup _ _ sport); [done | by rewrite Hkeys |].
    apply list_elem_of_fmap. exists sport. by rewrite Hid.
  - by apply or_str_nonempty.
  - by apply or_str_nonempty.
  - intros c -> Hc. simpl. by destruct (String.eqb_spec c "").
  - by intros [-> | ->].
  - intros [-> | ->]; simpl; unfold interpolate;
      destruct (Event.event_detail_1 event); simpl; by rewrite ?append_empty_r.
  - intros d2 -> Hd2. unfold interpolate. simpl.
    by destruct (String.eqb_spec d2 "").
  - done.
Qed.

End RendererFields.

(** ** The script around the run (lines 7-17 and 356) *)

Section ScriptStatus.
Context `{Host}.

(** The exit status of the process. It is 1 in two cases, and then
    nothing else has happened (no line logged, no query, no e-mail): one
    of the three keys is missing or empty (line 12), or the keys are there
    and one of the two library calls that make the clients throws (lines
    16-17). In every other case [main] is called, the run ends whatever
    the queries and the transport answer, and the status is 0, a rejection
    of [main] being logged by the handler of line 356. *)
Theorem script_exit_status (env : Env) (w : World) :
  (¬ has_keys env →
   script env w = Some ([UncaughtException "Missing required environment variables"], 1))
  ∧ (∀ message, has_keys env → setup_error env = Some message →
       script env w = Some ([UncaughtException message], 1))
  ∧ (configured env →
     ∃ tr out, main w = Some (tr, out)
               ∧ script env w
                 = Some (match out with
                         | Resolved => tr
                         | Rejected message => tr ++ [ConsoleError (Caught message)]
                         end, 0))
  ∧ ∃ tr status,
      script env w = Some (tr, status)
      ∧ (status = 0 ∧ configured env
         ∨ status = 1 ∧ ¬ configured env ∧ ∃ message, tr = [UncaughtException message]).
Proof.
  assert (¬ has_keys env →
          script env w
          = Some ([UncaughtException "Missing required environment variables"], 1))
    as Hmissing.
  { intros Hnot. unfold script, has_keys in *.
    destruct (JS.truthy_str (SENDGRID_API_KEY env)); [|done].
    destruct (JS.truthy_str (SUPABASE_URL env)); [|done].
    destruct (JS.truthy_str (SUPABASE_SERVICE_ROLE_KEY env)); [|done].
    by destruct Hnot. }
  assert (∀ message, has_keys env → setup_error env = Some message →
            script env w = Some ([UncaughtException message], 1)) as Hsetup.
  { intros message (H1 & H2 & H3) Hthrown. unfold script, setup_error in *.
    rewrite H1, H2, H3. simpl.
    destruct (createClient _ _) as [m|]; [by injection Hthrown as ->|].
    by rewrite Hthrown. }
  assert (configured env →
          ∃ tr out, main w = Some (tr, out)
                    ∧ script env w
                      = Some (match out with
                              | Resolved => tr
                              | Rejected message => tr ++ [ConsoleError (Caught message)]
                              end, 0)) as Hrun.
  { intros Henv. rewrite script_configured by done.
    destruct (main_total w) as [[tr out] Hmain]. rewrite Hmain.
    exists tr, out. split; [done|]. by destruct out. }
  split; [done|]. split; [done|]. split; [done|].
  assert (has_keys env ∨ ¬ has_keys env) as [Hkeys|Hkeys].
  { unfold has_keys.
    destruct (JS.truthy_str (SENDGRID_API_KEY env)),
      (JS.truthy_str (SUPABASE_URL env)),
      (JS.truthy_str (SUPABASE_SERVICE_ROLE_KEY env));
      first [by left | right; by intros (? & ? & ?)]. }
  - destruct (setup_error env) as [message|] eqn:Hthrown.
    + exists [UncaughtException message], 1. split; [by apply Hsetup|].
      right. split; [done|]. split; [|by exists message].
      intros [_ Hnone]. congruence.
    + destruct Hrun as (tr & out & _ & Hscript); [done|].
      eexists _, 0. split; [done|]. by left.
  - eexists _, 1. split; [by apply Hmissing|].
    right. split; [done|]. split; [by intros [? _] | by eexists].
Qed.

(** A row of the teams query without a name stops the run. With at least
    one event, [main] rejects at line 62 with the [TypeError], after the
    line "found": no matching is done, nothing is sent, no summary is
    printed; the handler of line 356 logs the error and the exit status
    is 0. *)
Theorem null_team_name_aborts_run (env : Env) (w : World) (team : Team.t) :
  configured env →
  Res.error (eventsRes w (targetDate (nowParis w))) = None →
  Res.rows (eventsRes w (targetDate (nowParis w))) ≠ [] →
  team ∈ Res.rows (teamsRes w) →
  Team.name team = None →
  let found :=
    [ConsoleLog LogStarting; (resolveTargetDate (nowParis w)).2;
     ConsoleLog (LogFound (length (Res.rows (eventsRes w (targetDate (nowParis w)))))
                   (targetDate (nowParis w)))] in
  let tr := found ++ [ConsoleError (Caught nullNameError)] in
  main w = Some (found, Rejected nullNameError)
  ∧ script env w = Some (tr, 0)
  ∧ no_send tr ∧ pacing tr = [] ∧ ¬ reached_matching tr ∧ ¬ has_summary tr.
Proof.
  intros Henv Herr Hrows Hteam Hname found tr.
  assert (teamsMapOf w = None) as Hteams.
  { destruct (teamsMapOf w) as [teamsMap|] eqn:Hsome; [|done].
    assert (teams_named w) as Hnamed by (apply teamsMapOf_named; by rewrite Hsome).
    unfold teams_named in Hnamed. rewrite Forall_forall in Hnamed.
    destruct (Hnamed team Hteam) as [name Hsome']. congruence. }
  pose proof (main_null_team_name w Herr Hrows Hteams) as Hmain.
  split; [done|].
  split; [rewrite script_configured by done; by rewrite Hmain|].
  assert (∀ e, e ∈ tr →
               e = ConsoleLog LogStarting
               ∨ (∃ h d, e = ConsoleLog (LogBefore6 h d) ∨ e = ConsoleLog (LogAfter6 h d))
               ∨ (∃ n d, e = ConsoleLog (LogFound n d))
               ∨ ∃ m, e = ConsoleError (Caught m)) as Hshape.
  { intros e. subst tr found. rewrite elem_of_app, !elem_of_cons, !elem_of_nil.
    intros [[->|[->|[->|[]]]]|[->|[]]];
      [by left | right; left | right; right; left; eauto | right; right; right; eauto].
    unfold resolveTargetDate. case_match; simpl; eauto. }
  split; [|split; [|split]].
  - intros to html Hin.
    apply Hshape in Hin as [?|[(h & d & [?|?])|[(n & d & ?)|[m ?]]]]; done.
  - subst tr found. unfold resolveTargetDate. by case_match.
  - intros [n Hin].
    apply Hshape in Hin as [?|[(h & d & [?|?])|[(n' & d & ?)|[m ?]]]]; done.
  - intros (sn & fl & Hin).
    apply Hshape in Hin as [?|[(h & d & [?|?])|[(n & d & ?)|[m ?]]]]; done.
Qed.

End ScriptStatus.

(** ** The order of the users (main, lines 73-90) *)

Section UsersOrder.
Context `{Host}.

Implicit Types (teamsMap : gmap Z string) (m : UserEventsMap).

Lemma record_match_keys m u o : (record_match m u o).*1 = seen_add m.*1 u.
Proof. by rewrite record_match_eq, Map_set_keys. Qed.

Lemma match_event_keys teamsMap alerts m o :
  (match_event teamsMap alerts m o).*1
  = foldl seen_add m.*1
      (Alert.user_id <$> filter (λ alert, matches teamsMap (val o) alert = true) alerts).
Proof.
  unfold match_event. revert m.
  induction alerts as [|alert alerts IH]; intros m; [done|].
  simpl foldl. rewrite IH, match_alert_matches, filter_cons.
  destruct (matches teamsMap (val o) alert) eqn:Hm.
  - rewrite decide_True by done. by rewrite record_match_keys.
  - by rewrite decide_False by (by intros ?).
Qed.

Lemma matcher_keys_from teamsMap alerts events m :
  (foldl (match_event teamsMap alerts) m events).*1
  = foldl seen_add m.*1 (matched_users teamsMap events alerts).
Proof.
  unfold matched_users. revert m.
  induction events as [|o events IH]; intros m; [done|].
  simpl foldl. rewrite IH, match_event_keys. csimpl. by rewrite foldl_app.
Qed.

(** The users of the mapping stand in the order of their first match, the
    events taken in the order of the events array and, for one event, the
    alerts in the order of the alerts array; this is the order the
    dispatcher goes through them. *)
Theorem matcher_users_in_first_match_order teamsMap (events : list EventObj)
    (alerts : list Alert.t) :
  (matcher teamsMap events alerts).*1
  = first_seen (matched_users teamsMap events alerts).
Proof. unfold matcher, first_seen. by rewrite matcher_keys_from. Qed.

End UsersOrder.

(** ** Concrete runs of the further properties *)

Lemma matcher_user_set_witness :
  Map_get (matcher (H := asciiHost) ∅ (allocate [atp_event; open_event])
             [any_league_alert; wta_alert]) "U1"
  = Some (allocate [atp_event; open_event]).
Proof.
  destruct (matcher_user_set (H := asciiHost) ∅ (allocate [atp_event; open_event])
              [any_league_alert; wta_alert] "U1") as (-> & _).
  - apply (bool_decide_unpack _). by vm_compute.
  - by vm_compute.
Defined.

Lemma filters_by_branch_witness :
  matches (H := asciiHost) lakers_teams open_event (Alert.mk 9 "U2" 20 (Some 1) (Some 7))
  = matches (H := asciiHost) ∅ open_event atp_alert.
Proof.
  by apply (proj1 (filters_by_branch (H := asciiHost) ∅ lakers_teams open_event
                     open_event atp_alert (Alert.mk 9 "U2" 20 (Some 1) (Some 7))
                     eq_refl eq_refl)).
Defined.

Lemma matcher_monotone_witness :
  holds (matcher (H := asciiHost) ∅ (allocate [atp_event; open_event])
           [wta_alert; atp_alert]) "U1" 0.
Proof.
  apply (matcher_monotone (H := asciiHost) ∅ (allocate [atp_event])
           (allocate [atp_event; open_event]) [atp_alert] [wta_alert; atp_alert]).
  - intros x Hx. apply list_elem_of_singleton in Hx as ->. in_list.
  - intros x Hx. apply list_elem_of_singleton in Hx as ->. in_list.
  - exists (allocate [atp_event]). split; [by vm_compute | in_list].
Defined.

Lemma dispatcher_sends_witness :
  ∃ p', dispatch (H := asciiHost) BATCH_SIZE ∅ twelve_addresses (λ k, bool_decide (k = 3%nat))
          twelve_users {| trace := []; sent := 0; failed := 0 |} = Some p'
        ∧ (mails (trace p')).*1
          = (λ e : string * EventSet, e.1 +:+ "@b.com") <$> twelve_users.
Proof.
  destruct (dispatcher_sends (H := asciiHost) BATCH_SIZE ∅ twelve_addresses
              (λ k, bool_decide (k = 3%nat)) twelve_users
              {| trace := []; sent := 0; failed := 0 |})
    as (p' & Hp' & Hmails & _).
  - unfold BATCH_SIZE. lia.
  - exists p'. split; [done|]. rewrite Hmails. by vm_compute.
Defined.

Lemma dispatcher_total_delay_witness :
  ∃ p', dispatch (H := asciiHost) BATCH_SIZE ∅ twelve_addresses (λ _, true)
          twelve_users {| trace := []; sent := 0; failed := 0 |} = Some p'
        ∧ total_sleep (trace p') = 11200.
Proof.
  destruct (dispatcher_total_delay (H := asciiHost) BATCH_SIZE ∅ twelve_addresses
              (λ _, true) twelve_users {| trace := []; sent := 0; failed := 0 |})
    as (p' & Hp' & Hsleep).
  - unfold BATCH_SIZE. lia.
  - exists p'. split; [done|]. rewrite Hsleep. by vm_compute.
Defined.

Lemma run_mails_witness :
  ∃ tr, main (H := asciiHost) (with_teams lakers_rows (scenario any_league_alert events_ok))
        = Some (tr, Resolved)
        ∧ (mails tr).*1 = ["a@b.com"].
Proof.
  destruct (run_mails (H := asciiHost)
              (with_teams lakers_rows (scenario any_league_alert events_ok)))
    as (teamsMap & tr & Hteams & Hmain & Hmails & _).
  - by vm_compute.
  - by vm_compute.
  - apply (bool_decide_unpack _). by vm_compute.
  - exists tr. split; [done|]. rewrite Hmails.
    injection Hteams as <-. by vm_compute.
Defined.

Lemma run_summary_agrees_with_log_witness :
  ∃ body (sent failed : nat),
    main (H := asciiHost) (with_teams lakers_rows (scenario any_league_alert events_ok))
    = Some (body ++ [ConsoleLog (LogDone sent failed)], Resolved)
    ∧ (sent + failed)%nat = length (mails body).
Proof.
  destruct (run_summary_agrees_with_log (H := asciiHost)
              (with_teams lakers_rows (scenario any_league_alert events_ok)))
    as (body & sent & failed & Hmain & _ & _ & Hsum & _).
  - by vm_compute.
  - by vm_compute.
  - apply (bool_decide_unpack _). by vm_compute.
  - by exists body, sent, failed.
Defined.

Lemma every_mail_has_a_match_witness :
  ∃ u, User.mk u (Some "a@b.com")
       ∈ Res.rows (usersRes (scenario any_league_alert events_ok)).
Proof.
  assert (∃ tr out html,
            main (H := asciiHost) (scenario any_league_alert events_ok) = Some (tr, out)
            ∧ ("a@b.com", html) ∈ mails tr) as (tr & out & html & Hmain & Hin).
  { do 3 eexists. split; [by vm_compute|]. cbn [mails]. apply list_elem_of_here. }
  destruct (every_mail_has_a_match (H := asciiHost) _ tr out "a@b.com" html Hmain Hin)
    as (teamsMap & u & s & _ & _ & Hu & _).
  by exists u.
Defined.

Lemma digest_sorted_by_start_witness :
  StronglySorted (starts_no_later (H := asciiHost))
    (digestOf (H := asciiHost) (allocate [atp_event; open_event])).
Proof.
  exact (proj1 (digest_sorted_by_start (H := asciiHost) _
                  codeCompare_total codeCompare_trans)).
Defined.

Lemma generic_rule_with_known_team_witness :
  ∃ teamsMap,
    teamsMapOf (H := asciiHost) lakers_world = Some teamsMap
    ∧ matches (H := asciiHost) teamsMap lakers_event lakers_alert = true.
Proof.
  eexists. split; [reflexivity|].
  apply (generic_rule_with_known_team (H := asciiHost) lakers_world _
           lakers_event lakers_alert "Celtics" "LAKERS"); try done.
  - apply (bool_decide_unpack _). by vm_compute.
  - right. exists (Team.mk 7 (Some "Lakers")), "Lakers", "LAKERS".
    split; [in_list|]. split; [done|]. split; [done|]. split; [by right|].
    by vm_compute.
Defined.

Lemma script_exit_status_witness :
  script (H := asciiHost) bad_url_env (scenario any_league_alert events_ok)
  = Some ([UncaughtException "Invalid supabaseUrl: Must be a valid HTTP or HTTPS URL."], 1).
Proof.
  apply (script_exit_status (H := asciiHost) bad_url_env
           (scenario any_league_alert events_ok)).
  - by repeat split.
  - by vm_compute.
Defined.

Lemma null_team_name_aborts_run_witness :
  script (H := asciiHost) some_env
    (with_teams [Team.mk 7 (Some "Lakers"); Team.mk 8 None]
       (scenario any_league_alert events_ok))
  = Some ([ConsoleLog LogStarting; ConsoleLog (LogAfter6 20 "2024-05-01");
           ConsoleLog (LogFound 1 "2024-05-01");
           ConsoleError (Caught nullNameError)], 0).
Proof.
  refine (proj1 (proj2 (null_team_name_aborts_run (H := asciiHost) some_env
                          (with_teams [Team.mk 7 (Some "Lakers"); Team.mk 8 None]
                             (scenario any_league_alert events_ok))
                          (Team.mk 8 None) _ _ _ _ _))).
  - by repeat split.
  - by vm_compute.
  - by vm_compute.
  - in_list.
  - done.
Defined.
